(** * Directory monitor: staging queue and size-polling sweep

    A shallow embedding of [directory-monitor.py] and the properties of
    its staging state machine.

    The program keeps a module-level dictionary [FILE_QUEUE] from paths
    to [FileQueueItem] objects.  [FileProcessor.on_any_event] (the
    notifier callback) inserts an object for a file that was modified;
    [FileProcessor.process_file] (the background thread) repeatedly
    snapshots the dictionary, re-measures every due file and either
    re-arms the object or pops it and logs that it is ready.

    Modelling choices, all visible in the definitions below:
    - a Python [dict] is an insertion-ordered association list, since
      the sweep iterates it in that order and stops at the first
      exception;
    - [FileQueueItem] objects live in an object store and the dictionary
      holds references, so the snapshot [dict(FILE_QUEUE)] shares the
      objects with the live dictionary and field assignments are seen
      through both;
    - the clock, [os.path.getsize] and [os.path.exists] are readings of
      an environment passed to each operation; every [getsize] call and
      every log record is appended to a trace of effects;
    - a [datetime] is the number of microseconds since [datetime.min];
    - exceptions are results: nothing in the program catches them, so
      an exception leaves the callback or ends the thread's loop with
      the state as it was at the raise;
    - one callback invocation and one pass of the sweep are executed as
      a whole (interleavings inside a pass are outside this model). *)

From Stdlib Require Import ZArith String Ascii List Bool Lia.
From stdpp Require Import base option list strings.

Local Open Scope string_scope.
Local Open Scope list_scope.
Local Open Scope Z_scope.

(** ** Strings: the [posixpath] functions the callback uses *)

Module Path.

(** [s.rfind(c)]: index of the last occurrence of [c], or [-1]. *)
Fixpoint rfind_at (c : ascii) (s : string) (i acc : Z) : Z :=
  match s with
  | EmptyString => acc
  | String x r => rfind_at c r (i + 1) (if Ascii.eqb x c then i else acc)
  end.

Definition rfind (c : ascii) (s : string) : Z := rfind_at c s 0 (-1).

(** [s[n:]] and [s[:n]] for a non-negative [n]. *)
Fixpoint drop (n : nat) (s : string) : string :=
  match n, s with
  | O, _ => s
  | S n', String _ r => drop n' r
  | S _, EmptyString => EmptyString
  end.

Fixpoint take (n : nat) (s : string) : string :=
  match n, s with
  | S n', String x r => String x (take n' r)
  | _, _ => EmptyString
  end.

(** [posixpath.basename]: [i = p.rfind('/') + 1; return p[i:]]. *)
Definition basename (p : string) : string :=
  drop (Z.to_nat (rfind "/" p + 1)) p.

(** The scan of [genericpath._splitext] over [p[sepIndex+1:dotIndex]]:
    [true] when the first [n] characters of [s] are all dots, in which
    case the loop falls through and the path has no extension. *)
Fixpoint only_dots (n : nat) (s : string) : bool :=
  match n, s with
  | O, _ => true
  | S n', String x r => if Ascii.eqb x "." then only_dots n' r else false
  | S _, EmptyString => false
  end.

(** [posixpath.splitext], i.e. [genericpath._splitext(p, '/', None, '.')]. *)
Definition splitext (p : string) : string * string :=
  let sepIndex := rfind "/" p in
  let dotIndex := rfind "." p in
  if dotIndex >? sepIndex then
    let filenameIndex := sepIndex + 1 in
    if only_dots (Z.to_nat (dotIndex - filenameIndex))
                 (drop (Z.to_nat filenameIndex) p)
    then (p, EmptyString)
    else (take (Z.to_nat dotIndex) p, drop (Z.to_nat dotIndex) p)
  else (p, EmptyString).

End Path.

(** ** Python dictionaries, in insertion order *)

Module Dict.
Section Ops.
Context {V : Type}.

Definition t := list (string * V).

(** [d.get(k)] *)
Fixpoint get (k : string) (d : list (string * V)) : option V :=
  match d with
  | [] => None
  | (k', v) :: d' => if String.eqb k' k then Some v else get k d'
  end.

(** [k in d] *)
Definition contains (k : string) (d : list (string * V)) : bool :=
  match get k d with Some _ => true | None => false end.

(** [d[k] = v]: an existing key keeps its position, a new one is
    appended. *)
Fixpoint set (k : string) (v : V) (d : list (string * V))
  : list (string * V) :=
  match d with
  | [] => [(k, v)]
  | (k', v') :: d' =>
      if String.eqb k' k then (k', v) :: d' else (k', v') :: set k v d'
  end.

(** The dictionary without [k] (what [d.pop(k)] leaves when [k] is
    present). *)
Fixpoint remove (k : string) (d : list (string * V))
  : list (string * V) :=
  match d with
  | [] => []
  | (k', v') :: d' =>
      if String.eqb k' k then d' else (k', v') :: remove k d'
  end.

Definition keys (d : list (string * V)) : list string := d.*1.
Definition values (d : list (string * V)) : list V := d.*2.
End Ops.
End Dict.

(** ** Time: [datetime] and [timedelta] *)

Module Datetime.

(** Microseconds since [datetime.min] = 0001-01-01T00:00:00. *)
Definition datetime := Z.

Definition datetime_min : datetime := 0.

(** [datetime.max] = 9999-12-31T23:59:59.999999; its proleptic
    ordinal is 3652059. *)
Definition datetime_max : datetime := 3652059 * 86400 * 1000000 - 1.

(** [timedelta(seconds=n)]: the value in microseconds;
    [OverflowError] (here [None]) when the normalised day count
    exceeds 999999999 in magnitude. *)
Definition timedelta_seconds (n : Z) : option Z :=
  if Z.abs (n / 86400) <=? 999999999 then Some (n * 1000000) else None.

(** [t + d]: [OverflowError] (here [None]) when the sum leaves the
    representable range. *)
Definition add (t : datetime) (d : Z) : option datetime :=
  let r := t + d in
  if (datetime_min <=? r) && (r <=? datetime_max) then Some r else None.

(** [t + timedelta(seconds=n)] *)
Definition add_seconds (t : datetime) (n : Z) : option datetime :=
  match timedelta_seconds n with
  | Some d => add t d
  | None => None
  end.

End Datetime.

(** ** Data model *)

(** The dataclass [FileQueueItem]; its [__init__] assigns nothing, so a
    new object shows the class-level defaults. *)
Record FileQueueItem := mkItem {
  file_path : string;
  file_size : Z;
  file_name : string;
  file_extention : string;
  next_poll : Datetime.datetime
}.

Definition FileQueueItem_new : FileQueueItem :=
  mkItem "" 0 "" "" Datetime.datetime_min.

#[global] Instance FileQueueItem_inhabited : Inhabited FileQueueItem :=
  populate FileQueueItem_new.

Definition with_file_path (v : string) (o : FileQueueItem) :=
  mkItem v (file_size o) (file_name o) (file_extention o) (next_poll o).
Definition with_file_size (v : Z) (o : FileQueueItem) :=
  mkItem (file_path o) v (file_name o) (file_extention o) (next_poll o).
Definition with_file_name (v : string) (o : FileQueueItem) :=
  mkItem (file_path o) (file_size o) v (file_extention o) (next_poll o).
Definition with_file_extention (v : string) (o : FileQueueItem) :=
  mkItem (file_path o) (file_size o) (file_name o) v (next_poll o).
Definition with_next_poll (v : Datetime.datetime) (o : FileQueueItem) :=
  mkItem (file_path o) (file_size o) (file_name o) (file_extention o) v.

(** A watchdog notification, as far as the callback reads it. *)
Record FileSystemEvent := mkEvent {
  is_directory : bool;
  event_type : string;
  src_path : string
}.

(** What one operation reads from the outside world. *)
Record env := mkEnv {
  clock : Datetime.datetime;              (* datetime.datetime.now() *)
  getsize : string -> option Z;       (* os.path.getsize; None = OSError *)
  path_exists : string -> bool        (* os.path.exists *)
}.

Inductive exn := OSError | OverflowError | KeyError | TypeError.

(** Log records, by message template. *)
Inductive log_record :=
| AddingToQueue (p : string)          (* info "'%s' updated.  Adding to queue" *)
| ReadyForProcessing (p : string)     (* info "'%s' is ready for processing" *)
| AddingMonitor (d : string)          (* info "Adding monitor to '%s'" *)
| DoesNotExist (d : string).          (* error "Directory '%s' does not exist.  Skipping for monitor" *)

(** Observable effects, in the order they happen. *)
Inductive effect :=
| Stat (p : string)                   (* a call of os.path.getsize *)
| Log (r : log_record)
| Watch (d : string)                  (* DirectoryWatcher(d, file_processor) *)
| ProcessorStarted.                   (* the thread started by FileProcessor.__init__ *)

#[global] Instance log_record_eq_dec : EqDecision log_record.
Proof. solve_decision. Defined.
#[global] Instance effect_eq_dec : EqDecision effect.
Proof. solve_decision. Defined.

(** The program state: the object store, the global dictionary (paths to
    references into the store) and the trace of effects so far. *)
Record state := mkState {
  heap : list FileQueueItem;
  FILE_QUEUE : list (string * nat);
  trace : list effect
}.

Definition initial_state : state := mkState [] [] [].

(** The entry tracked for a path: the object its key refers to. *)
Definition tracked (st : state) (p : string) : option FileQueueItem :=
  match Dict.get p (FILE_QUEUE st) with
  | Some a => heap st !! a
  | None => None
  end.

(** ** Computations: state plus exceptions *)

Inductive result (A : Type) :=
| Ok (a : A)
| Raise (e : exn).
Arguments Ok {A} a.
Arguments Raise {A} e.

Definition M (A : Type) : Type := state -> result A * state.

Definition ret {A} (a : A) : M A := fun st => (Ok a, st).

Definition bind {A B} (m : M A) (k : A -> M B) : M B :=
  fun st =>
    match m st with
    | (Ok a, st') => k a st'
    | (Raise e, st') => (Raise e, st')
    end.

Definition raise {A} (e : exn) : M A := fun st => (Raise e, st).

Declare Scope prog_scope.
Delimit Scope prog_scope with prog.
Notation "'do' x <- m ; k" := (bind m (fun x => k))
  (at level 10, x name, m at level 100, k at level 200) : prog_scope.
Notation "m ;; k" := (bind m (fun _ => k))
  (at level 100, k at level 200, right associativity) : prog_scope.

Local Open Scope prog_scope.

(** [for x in l: body x] *)
Fixpoint for_each {X} (l : list X) (body : X -> M unit) : M unit :=
  match l with
  | [] => ret tt
  | x :: l' => body x ;; for_each l' body
  end.

(** *** Primitive statements *)

Definition emit (e : effect) : M unit :=
  fun st => (Ok tt, mkState (heap st) (FILE_QUEUE st) (trace st ++ [e])).

Definition logger (r : log_record) : M unit := emit (Log r).

(** [FileQueueItem()]: a new object, returned by reference. *)
Definition new_item : M nat :=
  fun st =>
    (Ok (length (heap st)),
     mkState (heap st ++ [FileQueueItem_new]) (FILE_QUEUE st) (trace st)).

(** Reading the object behind a reference. *)
Definition deref (a : nat) : M FileQueueItem :=
  fun st => (Ok (heap st !!! a), st).

(** [obj.field = v], for the field that [upd] assigns. *)
Definition assign (a : nat) (upd : FileQueueItem -> FileQueueItem) : M unit :=
  fun st =>
    (Ok tt,
     mkState (<[a := upd (heap st !!! a)]> (heap st)) (FILE_QUEUE st) (trace st)).

(** [os.path.getsize(p)] *)
Definition os_path_getsize (e : env) (p : string) : M Z :=
  emit (Stat p) ;;
  match getsize e p with
  | Some n => ret n
  | None => raise OSError
  end.

(** [t + timedelta(seconds = n)] *)
Definition plus_seconds (t : Datetime.datetime) (n : Z) : M Datetime.datetime :=
  match Datetime.add_seconds t n with
  | Some t' => ret t'
  | None => raise OverflowError
  end.

(** [p in FILE_QUEUE] *)
Definition queue_contains (p : string) : M bool :=
  fun st => (Ok (Dict.contains p (FILE_QUEUE st)), st).

(** [FILE_QUEUE[p] = obj] *)
Definition queue_set (p : string) (a : nat) : M unit :=
  fun st =>
    (Ok tt, mkState (heap st) (Dict.set p a (FILE_QUEUE st)) (trace st)).

(** [FILE_QUEUE.pop(p)] *)
Definition queue_pop (p : string) : M unit :=
  fun st =>
    if Dict.contains p (FILE_QUEUE st)
    then (Ok tt, mkState (heap st) (Dict.remove p (FILE_QUEUE st)) (trace st))
    else (Raise KeyError, st).

(** [dict(FILE_QUEUE)]: a new dictionary over the same objects. *)
Definition queue_snapshot : M (list (string * nat)) :=
  fun st => (Ok (FILE_QUEUE st), st).

(** ** The program *)

Section Program.

(** [str.lower], which the standard library supplies. *)
Variable lower : string -> string.

(** [FileProcessor.polling_time_secs], from [--polling-time]. *)
Variable polling_time_secs : Z.

(** [FileProcessor.on_any_event(event)], with the readings [e] of the
    file system and the clock during the call. *)
Definition on_any_event (event : FileSystemEvent) (e : env) : M unit :=
  if is_directory event || negb (String.eqb (event_type event) "modified")
  then ret tt
  else
    do present <- queue_contains (src_path event);
    if (present : bool) then ret tt
    else
      logger (AddingToQueue (src_path event)) ;;
      let file_extension := snd (Path.splitext (src_path event)) in
      do queued_file <- new_item;
      assign queued_file (with_file_path (src_path event)) ;;
      do size <- os_path_getsize e (src_path event);
      assign queued_file (with_file_size size) ;;
      assign queued_file (with_file_name (Path.basename (src_path event))) ;;
      assign queued_file (with_file_extention (lower file_extension)) ;;
      do t <- plus_seconds (clock e) polling_time_secs;
      assign queued_file (with_next_poll t) ;;
      queue_set (src_path event) queued_file.

(** The body of the [for] loop of [process_file], for one item of the
    snapshot. *)
Definition process_item (e : env) (current_time : Datetime.datetime)
           (item : string * nat) : M unit :=
  let '(queue_file_path, queued_file) := item in
  do o <- deref queued_file;
  if next_poll o >? current_time then ret tt
  else
    do current_file_size <- os_path_getsize e queue_file_path;
    if negb (current_file_size =? file_size o) then
      assign queued_file (with_file_size current_file_size) ;;
      do t <- plus_seconds current_time polling_time_secs;
      assign queued_file (with_next_poll t) ;;
      queue_set queue_file_path queued_file
    else
      queue_pop queue_file_path ;;
      do o' <- deref queued_file;
      logger (ReadyForProcessing (file_path o')).

(** One iteration of the [while True] loop of [process_file] (the
    [time.sleep(1)] that ends it has no effect on the state). *)
Definition sweep (e : env) : M unit :=
  let current_time := clock e in
  do current_items <- queue_snapshot;
  for_each current_items (process_item e current_time).

(** [FileProcessor.process_file]: the loop never ends by itself; the
    list gives the readings of the iterations observed.  An exception
    leaves the loop, and with it the thread. *)
Fixpoint process_file (es : list env) : M unit :=
  match es with
  | [] => ret tt
  | e :: es' => sweep e ;; process_file es'
  end.

(** [main()], up to the final idle loop.  [directories] is
    [args.directories_to_monitor], which is [None] when the flag is
    not given. *)
Definition main (directories : option (list string)) (e : env) : M unit :=
  emit ProcessorStarted ;;
  match directories with
  | None => raise TypeError
  | Some ds =>
      for_each ds (fun directory =>
        if path_exists e directory then
          emit (Watch directory) ;;
          logger (AddingMonitor directory)
        else
          logger (DoesNotExist directory))
  end.

End Program.

(** ** The two threads together

    The notifier thread calls [on_any_event] once per notification and
    the processor thread runs [process_file].  A run of the program is a
    sequence of such steps.  An exception in the callback goes to the
    notifier that called it; an exception in a sweep ends the processor
    thread, after which no sweep runs any more. *)

Inductive thread := Running | Ended (e : exn).

Record system := mkSystem {
  memory : state;
  processor : thread
}.

Inductive action :=
| Notify (event : FileSystemEvent) (e : env)
| Tick (e : env).

Section System.
Variable lower : string -> string.
Variable polling_time_secs : Z.

Definition step (s : system) (a : action) : system :=
  match a with
  | Notify event e =>
      mkSystem (snd (on_any_event lower polling_time_secs event e (memory s)))
               (processor s)
  | Tick e =>
      match processor s with
      | Running =>
          match sweep polling_time_secs e (memory s) with
          | (Ok _, st') => mkSystem st' Running
          | (Raise x, st') => mkSystem st' (Ended x)
          end
      | Ended _ => s
      end
  end.

Definition run (s : system) (l : list action) : system := fold_left step l s.

(** States the program can be in between two steps. *)
Inductive reachable : state -> Prop :=
| reach_initial : reachable initial_state
| reach_main st ds e :
    reachable st -> reachable (snd (main ds e st))
| reach_event st event e :
    reachable st ->
    reachable (snd (on_any_event lower polling_time_secs event e st))
| reach_sweep st e :
    reachable st -> reachable (snd (sweep polling_time_secs e st)).

(** Every tracked object carries the path it is filed under and the
    name and extension derived from it. *)
Definition consistent (st : state) : Prop :=
  forall p o,
    tracked st p = Some o ->
    file_path o = p /\
    file_name o = Path.basename p /\
    file_extention o = lower (snd (Path.splitext p)).

End System.

(** The dictionary has one entry per key, no object is filed under two
    keys, and every reference points into the store. *)
Record well_formed (st : state) : Prop := mkWf {
  wf_keys : NoDup (Dict.keys (FILE_QUEUE st));
  wf_refs : NoDup (Dict.values (FILE_QUEUE st));
  wf_bound : Forall (fun a => (a < length (heap st))%nat)
                    (Dict.values (FILE_QUEUE st))
}.

Definition queue_invariant (lower : string -> string) (st : state) : Prop :=
  well_formed st /\ consistent lower st.

(** A notification the callback acts on. *)
Definition qualifies (event : FileSystemEvent) : Prop :=
  is_directory event = false /\ event_type event = "modified".

(** The action is a notification for the path [p]. *)
Definition notifies (p : string) (a : action) : Prop :=
  match a with
  | Notify event _ => src_path event = p
  | Tick _ => False
  end.

(** The effects [main] has for one configured directory. *)
Definition monitor_effects (e : env) (directory : string) : list effect :=
  if path_exists e directory
  then [Watch directory; Log (AddingMonitor directory)]
  else [Log (DoesNotExist directory)].

(** The effects appended to the trace between two states. *)
Definition emitted (st st' : state) : list effect :=
  drop (length (trace st)) (trace st').

(** [trace st'] continues [trace st]. *)
Definition extends (st st' : state) : Prop :=
  trace st' = trace st ++ emitted st st'.

Definition occurrences (x : effect) (l : list effect) : nat :=
  length (filter (fun y => y = x) l).

(** How often a file was reported ready. *)
Definition times_ready (p : string) (l : list effect) : nat :=
  occurrences (Log (ReadyForProcessing p)) l.

(** How often a file was measured. *)
Definition times_stat (p : string) (l : list effect) : nat :=
  occurrences (Stat p) l.

(** The number of dictionary entries filed under [p]. *)
Definition entries_for (p : string) (st : state) : nat :=
  length (filter (fun k => k = p) (Dict.keys (FILE_QUEUE st))).

(** The readings an action comes with. *)
Definition action_env (a : action) : env :=
  match a with
  | Notify _ e => e
  | Tick e => e
  end.

(** C5, as the specification states it: the callback returns normally
    and the path is not tracked. *)
Definition dropped_silently (lower : string -> string) (polling : Z)
           (event : FileSystemEvent) (e : env) (st : state) : Prop :=
  fst (on_any_event lower polling event e st) = Ok tt /\
  tracked (snd (on_any_event lower polling event e st)) (src_path event) = None.

(** C6, as the specification states it, for a tick [e] at which the
    file [p] cannot be measured, the next tick [e'] and another tracked
    file [q]: the entry of [p] is untouched, [p] is measured again at
    the next tick, and [q] is reported once its size has settled. *)
Definition orphan_retried (lower : string -> string) (polling : Z)
           (s : system) (e e' : env) (p q : string) : Prop :=
  let s1 := step lower polling s (Tick e) in
  let s2 := step lower polling s1 (Tick e') in
  tracked (memory s1) p = tracked (memory s) p /\
  Stat p ∈ emitted (memory s1) (memory s2) /\
  Log (ReadyForProcessing q) ∈ emitted (memory s) (memory s2).

(** The paths a trace measures, reports ready and watches, in the order
    of the trace, and its log records. *)
Definition stat_path (x : effect) : option string :=
  match x with Stat p => Some p | _ => None end.

Definition ready_path (x : effect) : option string :=
  match x with Log (ReadyForProcessing p) => Some p | _ => None end.

Definition watch_path (x : effect) : option string :=
  match x with Watch d => Some d | _ => None end.

Definition log_of (x : effect) : option log_record :=
  match x with Log r => Some r | _ => None end.

Definition measured_paths (evs : list effect) : list string := omap stat_path evs.

Definition ready_paths (evs : list effect) : list string := omap ready_path evs.

Definition watched (evs : list effect) : list string := omap watch_path evs.

Definition logged (evs : list effect) : list log_record := omap log_of evs.

(** The action is no tick at or after the time [t]. *)
Definition not_before (t : Datetime.datetime) (a : action) : Prop :=
  match a with
  | Tick e => clock e < t
  | Notify _ _ => True
  end.


(** What one sweep item does, as a relation between the state before
    and the outcome; [a] is the reference filed under [k]. *)
Inductive item_step (polling_time_secs : Z) (e : env) (k : string) (a : nat)
          (st : state) : result unit -> state -> Prop :=
| item_not_due o :
    heap st !! a = Some o ->
    clock e < next_poll o ->
    item_step polling_time_secs e k a st (Ok tt) st
| item_stat_fails o :
    heap st !! a = Some o ->
    next_poll o <= clock e ->
    getsize e k = None ->
    item_step polling_time_secs e k a st (Raise OSError)
      (mkState (heap st) (FILE_QUEUE st) (trace st ++ [Stat k]))
| item_rearm o n t :
    heap st !! a = Some o ->
    next_poll o <= clock e ->
    getsize e k = Some n ->
    n <> file_size o ->
    Datetime.add_seconds (clock e) polling_time_secs = Some t ->
    item_step polling_time_secs e k a st (Ok tt)
      (mkState (<[a := with_next_poll t (with_file_size n o)]> (heap st))
               (FILE_QUEUE st) (trace st ++ [Stat k]))
| item_overflow o n :
    heap st !! a = Some o ->
    next_poll o <= clock e ->
    getsize e k = Some n ->
    n <> file_size o ->
    Datetime.add_seconds (clock e) polling_time_secs = None ->
    item_step polling_time_secs e k a st (Raise OverflowError)
      (mkState (<[a := with_file_size n o]> (heap st))
               (FILE_QUEUE st) (trace st ++ [Stat k]))
| item_ready o :
    heap st !! a = Some o ->
    next_poll o <= clock e ->
    getsize e k = Some (file_size o) ->
    item_step polling_time_secs e k a st (Ok tt)
      (mkState (heap st) (Dict.remove k (FILE_QUEUE st))
               (trace st ++ [Stat k; Log (ReadyForProcessing (file_path o))])).

(** What one call of the callback does, as a relation between the
    state before and the outcome. *)
Inductive event_step (lower : string -> string) (polling_time_secs : Z)
          (event : FileSystemEvent) (e : env) (st : state)
  : result unit -> state -> Prop :=
| event_ignored :
    is_directory event = true \/ event_type event <> "modified" ->
    event_step lower polling_time_secs event e st (Ok tt) st
| event_known :
    qualifies event ->
    src_path event ∈ Dict.keys (FILE_QUEUE st) ->
    event_step lower polling_time_secs event e st (Ok tt) st
| event_stat_fails :
    qualifies event ->
    src_path event ∉ Dict.keys (FILE_QUEUE st) ->
    getsize e (src_path event) = None ->
    event_step lower polling_time_secs event e st (Raise OSError)
      (mkState (heap st ++ [with_file_path (src_path event) FileQueueItem_new])
               (FILE_QUEUE st)
               (trace st ++ [Log (AddingToQueue (src_path event));
                             Stat (src_path event)]))
| event_overflow n :
    qualifies event ->
    src_path event ∉ Dict.keys (FILE_QUEUE st) ->
    getsize e (src_path event) = Some n ->
    Datetime.add_seconds (clock e) polling_time_secs = None ->
    event_step lower polling_time_secs event e st (Raise OverflowError)
      (mkState (heap st ++
                  [mkItem (src_path event) n (Path.basename (src_path event))
                          (lower (snd (Path.splitext (src_path event))))
                          Datetime.datetime_min])
               (FILE_QUEUE st)
               (trace st ++ [Log (AddingToQueue (src_path event));
                             Stat (src_path event)]))
| event_queued n t :
    qualifies event ->
    src_path event ∉ Dict.keys (FILE_QUEUE st) ->
    getsize e (src_path event) = Some n ->
    Datetime.add_seconds (clock e) polling_time_secs = Some t ->
    event_step lower polling_time_secs event e st (Ok tt)
      (mkState (heap st ++
                  [mkItem (src_path event) n (Path.basename (src_path event))
                          (lower (snd (Path.splitext (src_path event)))) t])
               (FILE_QUEUE st ++ [(src_path event, length (heap st))])
               (trace st ++ [Log (AddingToQueue (src_path event));
                             Stat (src_path event)])).

(** A run of the sweep loop over the snapshot items [l], from a state
    that satisfies the invariant; the loop ends with the first item that
    raises. *)
Inductive sweep_run (lower : string -> string) (polling_time_secs : Z) (e : env)
  : list (string * nat) -> state -> result unit -> state -> Prop :=
| run_done st :
    queue_invariant lower st ->
    sweep_run lower polling_time_secs e [] st (Ok tt) st
| run_item k a l st st1 r st2 :
    queue_invariant lower st ->
    Dict.get k (FILE_QUEUE st) = Some a ->
    item_step polling_time_secs e k a st (Ok tt) st1 ->
    sweep_run lower polling_time_secs e l st1 r st2 ->
    sweep_run lower polling_time_secs e ((k, a) :: l) st r st2
| run_raise k a l st x st1 :
    queue_invariant lower st ->
    Dict.get k (FILE_QUEUE st) = Some a ->
    item_step polling_time_secs e k a st (Raise x) st1 ->
    sweep_run lower polling_time_secs e ((k, a) :: l) st (Raise x) st1.

(** What a sweep that measured the file [p], tracked as [o], has done
    with it: [r] is the result of the sweep, [st'] the state it leaves
    and [evs] the effects it had. *)
Inductive measured (polling_time_secs : Z) (e : env) (p : string)
          (o : FileQueueItem) (r : result unit) (st' : state)
          (evs : list effect) : Prop :=
| measured_vanished :
    getsize e p = None ->
    r = Raise OSError ->
    tracked st' p = Some o ->
    times_ready p evs = 0%nat ->
    measured polling_time_secs e p o r st' evs
| measured_grown n t :
    getsize e p = Some n ->
    n <> file_size o ->
    Datetime.add_seconds (clock e) polling_time_secs = Some t ->
    tracked st' p = Some (with_next_poll t (with_file_size n o)) ->
    times_ready p evs = 0%nat ->
    measured polling_time_secs e p o r st' evs
| measured_overflow n :
    getsize e p = Some n ->
    n <> file_size o ->
    Datetime.add_seconds (clock e) polling_time_secs = None ->
    r = Raise OverflowError ->
    tracked st' p = Some (with_file_size n o) ->
    times_ready p evs = 0%nat ->
    measured polling_time_secs e p o r st' evs
| measured_settled :
    getsize e p = Some (file_size o) ->
    tracked st' p = None ->
    times_ready p evs = 1%nat ->
    measured polling_time_secs e p o r st' evs.

(** ** Concrete inputs for the examples *)

Module Sample.

(** [str.lower] on ASCII letters. *)
Definition lower_char (c : ascii) : ascii :=
  let n := nat_of_ascii c in
  if ((65 <=? n) && (n <=? 90))%nat then ascii_of_nat (n + 32) else c.

Fixpoint lower (s : string) : string :=
  match s with
  | EmptyString => EmptyString
  | String c r => String (lower_char c) (lower r)
  end.

Definition modified (p : string) : FileSystemEvent := mkEvent false "modified" p.

(** A file system given by a list of files and sizes, at a time in
    seconds. *)
Definition world (seconds : Z) (files : list (string * Z)) : env :=
  mkEnv (seconds * 1000000) (fun p => Dict.get p files)
        (fun p => Dict.contains p files).

Definition start : system := mkSystem initial_state Running.

Definition a_txt := "D/a.txt".
Definition b_txt := "D/b.txt".

(** [D/a.txt], 100 bytes long, was modified at time 0 and is staged. *)
Definition staged : system :=
  step lower 2 start (Notify (modified a_txt) (world 0 [(a_txt, 100)])).

(** Two files are staged at time 0. *)
Definition both : list (string * Z) := [(a_txt, 10); (b_txt, 20)].

Definition staged_both : system :=
  run lower 2 start
      [Notify (modified a_txt) (world 0 both);
       Notify (modified b_txt) (world 0 both)].

End Sample.

(** * Properties *)

(** ** The definitions at work *)

Example splitext_upper : Path.splitext "/a/b/c.TXT" = ("/a/b/c", ".TXT").
Proof. reflexivity. Qed.

Example splitext_hidden : Path.splitext "/a/b/.bashrc" = ("/a/b/.bashrc", "").
Proof. reflexivity. Qed.

Example splitext_dotted_directory : Path.splitext "/a.b/c" = ("/a.b/c", "").
Proof. reflexivity. Qed.

Example splitext_last_dot : Path.splitext "x.tar.gz" = ("x.tar", ".gz").
Proof. reflexivity. Qed.

Example basename_file : Path.basename "/a/b/c.TXT" = "c.TXT".
Proof. reflexivity. Qed.

Example basename_trailing_slash : Path.basename "abc/" = "".
Proof. reflexivity. Qed.

Example add_seconds_in_range :
  Datetime.add_seconds 7000000 2 = Some 9000000.
Proof. reflexivity. Qed.

Example add_seconds_before_min : Datetime.add_seconds 0 (-1) = None.
Proof. reflexivity. Qed.

Example add_seconds_after_max :
  Datetime.add_seconds Datetime.datetime_max 1 = None.
Proof. reflexivity. Qed.

(** A notification stages the file with its derived fields. *)
Example staging_a_report :
  snd (on_any_event Sample.lower 2 (Sample.modified "/in/Report.PDF")
                    (Sample.world 7 [("/in/Report.PDF", 12)]) initial_state)
  = mkState [mkItem "/in/Report.PDF" 12 "Report.PDF" ".pdf" 9000000]
            [("/in/Report.PDF", 0%nat)]
            [Log (AddingToQueue "/in/Report.PDF"); Stat "/in/Report.PDF"].
Proof. reflexivity. Qed.

(** With a polling interval of two seconds, a file of three bytes that
    is written once is added to the queue, skipped by the tick one
    second later and reported ready by the tick after that. *)
Example three_byte_file :
  let fs := [("D/a.txt", 3)] in
  let s := run Sample.lower 2 Sample.start
             [Notify (Sample.modified "D/a.txt") (Sample.world 0 fs);
              Tick (Sample.world 1 fs); Tick (Sample.world 2 fs);
              Tick (Sample.world 3 fs)] in
  FILE_QUEUE (memory s) = [] /\
  trace (memory s) =
    [Log (AddingToQueue "D/a.txt"); Stat "D/a.txt";
     Stat "D/a.txt"; Log (ReadyForProcessing "D/a.txt")] /\
  processor s = Running.
Proof. repeat split. Qed.

(** A file that is gone when its turn comes ends the processor thread;
    the file behind it in the queue is never looked at. *)
Example vanished_file_ends_the_thread :
  let s := run Sample.lower 2 Sample.staged_both
             [Tick (Sample.world 2 [(Sample.b_txt, 20)]);
              Tick (Sample.world 3 [(Sample.b_txt, 20)])] in
  processor s = Ended OSError /\
  Dict.keys (FILE_QUEUE (memory s)) = [Sample.a_txt; Sample.b_txt] /\
  emitted (memory Sample.staged_both) (memory s) = [Stat Sample.a_txt].
Proof. repeat split. Qed.

(** Without [--directories-to-monitor] the loop of [main] has nothing
    to iterate over. *)
Example main_without_directories :
  fst (main None (Sample.world 0 []) initial_state) = Raise TypeError.
Proof. reflexivity. Qed.


(** ** Dictionaries *)

Module DictFacts.
Section Facts.
Context {V : Type}.
Implicit Types (d : list (string * V)) (k : string) (v : V).

Lemma get_Some_elem d k v : Dict.get k d = Some v -> (k, v) ∈ d.
Proof.
  induction d as [|[k' v'] d IH]; simpl; [discriminate|].
  destruct (String.eqb_spec k' k) as [->|Hne].
  - intros [= ->]. left.
  - intros H. right. auto.
Qed.

Lemma get_None d k : Dict.get k d = None <-> k ∉ Dict.keys d.
Proof.
  unfold Dict.keys.
  induction d as [|[k' v'] d IH]; simpl.
  - split; [intros _; apply not_elem_of_nil | done].
  - rewrite not_elem_of_cons. simpl.
    destruct (String.eqb_spec k' k) as [->|Hne].
    + split; [discriminate | intros [? _]; congruence].
    + rewrite IH. split; [intros ?; split; [congruence|done] | tauto].
Qed.

Lemma get_is_Some d k : is_Some (Dict.get k d) <-> k ∈ Dict.keys d.
Proof.
  rewrite <- not_eq_None_Some, get_None.
  split; [apply dec_stable | auto].
Qed.

Lemma contains_true d k : Dict.contains k d = true <-> k ∈ Dict.keys d.
Proof.
  rewrite <- get_is_Some. unfold Dict.contains.
  destruct (Dict.get k d); split; intros H;
    first [done | by eauto | by destruct H].
Qed.

Lemma contains_false d k : Dict.contains k d = false <-> k ∉ Dict.keys d.
Proof.
  rewrite <- contains_true. destruct (Dict.contains k d); split; congruence.
Qed.

Lemma elem_get d k v :
  NoDup (Dict.keys d) -> (k, v) ∈ d -> Dict.get k d = Some v.
Proof.
  unfold Dict.keys.
  induction d as [|[k' v'] d IH]; simpl; intros Hnd Hin.
  - by apply elem_of_nil in Hin.
  - apply NoDup_cons in Hnd as [Hk' Hnd].
    apply elem_of_cons in Hin as [[= -> ->]|Hin].
    + by rewrite String.eqb_refl.
    + destruct (String.eqb_spec k' k) as [->|Hne]; [|auto].
      exfalso. apply Hk'. apply list_elem_of_fmap. by exists (k, v).
Qed.

Lemma get_set_eq d k v : Dict.get k (Dict.set k v d) = Some v.
Proof.
  induction d as [|[k' v'] d IH]; simpl.
  - by rewrite String.eqb_refl.
  - destruct (String.eqb_spec k' k) as [->|Hne]; simpl.
    + by rewrite String.eqb_refl.
    + by destruct (String.eqb_spec k' k).
Qed.

Lemma get_set_ne d k k' v :
  k <> k' -> Dict.get k' (Dict.set k v d) = Dict.get k' d.
Proof.
  intros Hne. induction d as [|[k0 v0] d IH]; simpl.
  - by destruct (String.eqb_spec k k').
  - destruct (String.eqb_spec k0 k) as [->|Hne0]; simpl.
    + by destruct (String.eqb_spec k k').
    + by rewrite IH.
Qed.

Lemma set_present d k v : Dict.get k d = Some v -> Dict.set k v d = d.
Proof.
  induction d as [|[k' v'] d IH]; simpl; [discriminate|].
  destruct (String.eqb_spec k' k) as [->|Hne].
  - by intros [= ->].
  - intros H. by rewrite IH.
Qed.

Lemma set_absent d k v :
  Dict.get k d = None -> Dict.set k v d = d ++ [(k, v)].
Proof.
  induction d as [|[k' v'] d IH]; simpl; [done|].
  destruct (String.eqb_spec k' k) as [->|Hne]; [discriminate|].
  intros H. by rewrite IH.
Qed.

Lemma remove_sublist d k : Dict.remove k d `sublist_of` d.
Proof.
  induction d as [|[k' v'] d IH]; simpl; [done|].
  destruct (String.eqb k' k).
  - by apply sublist_cons.
  - by apply sublist_skip.
Qed.

Lemma get_remove_ne d k k' :
  k <> k' -> Dict.get k' (Dict.remove k d) = Dict.get k' d.
Proof.
  intros Hne. induction d as [|[k0 v0] d IH]; simpl; [done|].
  destruct (String.eqb_spec k0 k) as [->|Hne0]; simpl.
  - by destruct (String.eqb_spec k k').
  - by rewrite IH.
Qed.

Lemma get_remove_eq d k :
  NoDup (Dict.keys d) -> Dict.get k (Dict.remove k d) = None.
Proof.
  unfold Dict.keys.
  induction d as [|[k0 v0] d IH]; simpl; [done|].
  intros [Hk Hnd]%NoDup_cons.
  destruct (String.eqb_spec k0 k) as [->|Hne0]; simpl.
  - by apply get_None.
  - destruct (String.eqb_spec k0 k); [done|auto].
Qed.

Lemma keys_remove_NoDup d k :
  NoDup (Dict.keys d) -> NoDup (Dict.keys (Dict.remove k d)).
Proof.
  intros H. eapply sublist_NoDup; [exact H|].
  apply fmap_sublist, remove_sublist.
Qed.

Lemma values_remove_NoDup d k :
  NoDup (Dict.values d) -> NoDup (Dict.values (Dict.remove k d)).
Proof.
  intros H. eapply sublist_NoDup; [exact H|].
  apply fmap_sublist, remove_sublist.
Qed.

Lemma values_remove_Forall (P : V -> Prop) d k :
  Forall P (Dict.values d) -> Forall P (Dict.values (Dict.remove k d)).
Proof.
  rewrite !Forall_forall. intros H a Ha. apply H.
  eapply elem_of_sublist; [exact Ha|].
  apply fmap_sublist, remove_sublist.
Qed.

(** Two keys filed under the same value are the same key, when no
    value is filed twice. *)
Lemma get_inj d k k' v :
  NoDup (Dict.values d) ->
  Dict.get k d = Some v -> Dict.get k' d = Some v -> k = k'.
Proof.
  unfold Dict.values.
  induction d as [|[k0 v0] d IH]; simpl; [discriminate|].
  intros [Hv Hnd]%NoDup_cons.
  destruct (String.eqb_spec k0 k) as [Hk|Hk], (String.eqb_spec k0 k') as [Hk'|Hk'].
  - congruence.
  - intros [= ->] H%get_Some_elem. exfalso. apply Hv.
    apply list_elem_of_fmap. by exists (k', v).
  - intros H%get_Some_elem [= ->]. exfalso. apply Hv.
    apply list_elem_of_fmap. by exists (k, v).
  - auto.
Qed.

End Facts.
End DictFacts.

(** ** The object store seen through the dictionary *)

Import DictFacts.

Section Store.
Implicit Types (st : state) (k p : string) (a : nat) (o x : FileQueueItem).

Lemma tracked_Some st p o :
  tracked st p = Some o <->
  exists a, Dict.get p (FILE_QUEUE st) = Some a /\ heap st !! a = Some o.
Proof.
  unfold tracked. destruct (Dict.get p (FILE_QUEUE st)) as [a|].
  - split; [eauto | by intros (? & [= <-] & ?)].
  - split; [discriminate | by intros (? & [=] & _)].
Qed.

Lemma tracked_None_absent st p :
  Dict.get p (FILE_QUEUE st) = None -> tracked st p = None.
Proof. unfold tracked. by intros ->. Qed.

Lemma well_formed_ref st k a :
  well_formed st -> Dict.get k (FILE_QUEUE st) = Some a ->
  (a < length (heap st))%nat.
Proof.
  intros [_ _ Hb] Hk. rewrite Forall_forall in Hb. apply Hb.
  apply get_Some_elem in Hk. apply list_elem_of_fmap. by exists (k, a).
Qed.

Lemma well_formed_lookup st k a :
  well_formed st -> Dict.get k (FILE_QUEUE st) = Some a ->
  exists o, heap st !! a = Some o.
Proof.
  intros Hwf Hk. apply lookup_lt_is_Some_2. by eapply well_formed_ref.
Qed.

Lemma tracked_is_Some st p :
  well_formed st ->
  is_Some (tracked st p) <-> p ∈ Dict.keys (FILE_QUEUE st).
Proof.
  intros Hwf. rewrite <- get_is_Some. split.
  - intros [o (a & Ha & _)%tracked_Some]. eauto.
  - intros [a Ha]. destruct (well_formed_lookup _ _ _ Hwf Ha) as [o Ho].
    exists o. apply tracked_Some. eauto.
Qed.

Lemma tracked_assign st k a x tr :
  well_formed st -> Dict.get k (FILE_QUEUE st) = Some a ->
  tracked (mkState (<[a := x]> (heap st)) (FILE_QUEUE st) tr) k = Some x.
Proof.
  intros Hwf Hk. unfold tracked; simpl. rewrite Hk.
  apply list_lookup_insert_eq. by eapply well_formed_ref.
Qed.

Lemma tracked_assign_other st k a x tr p :
  well_formed st -> Dict.get k (FILE_QUEUE st) = Some a -> p <> k ->
  tracked (mkState (<[a := x]> (heap st)) (FILE_QUEUE st) tr) p = tracked st p.
Proof.
  intros Hwf Hk Hne. unfold tracked; simpl.
  destruct (Dict.get p (FILE_QUEUE st)) as [a'|] eqn:Hp; [|done].
  apply list_lookup_insert_ne. intros ->.
  apply Hne. eapply get_inj; eauto. apply Hwf.
Qed.

Lemma tracked_pop st k tr :
  well_formed st ->
  tracked (mkState (heap st) (Dict.remove k (FILE_QUEUE st)) tr) k = None.
Proof.
  intros Hwf. apply tracked_None_absent; simpl.
  apply get_remove_eq, Hwf.
Qed.

Lemma tracked_pop_other st k tr p :
  p <> k ->
  tracked (mkState (heap st) (Dict.remove k (FILE_QUEUE st)) tr) p = tracked st p.
Proof.
  intros Hne. unfold tracked; simpl. by rewrite get_remove_ne.
Qed.

Lemma well_formed_assign st a x tr :
  well_formed st ->
  well_formed (mkState (<[a := x]> (heap st)) (FILE_QUEUE st) tr).
Proof.
  intros [H1 H2 H3]. split; simpl; try done. by rewrite length_insert.
Qed.

Lemma well_formed_pop st k tr :
  well_formed st ->
  well_formed (mkState (heap st) (Dict.remove k (FILE_QUEUE st)) tr).
Proof.
  intros [H1 H2 H3]. split; simpl.
  - by apply keys_remove_NoDup.
  - by apply values_remove_NoDup.
  - by apply values_remove_Forall.
Qed.

Lemma well_formed_trace st tr :
  well_formed st -> well_formed (mkState (heap st) (FILE_QUEUE st) tr).
Proof. by intros [H1 H2 H3]. Qed.

Lemma well_formed_initial : well_formed initial_state.
Proof. split; simpl; constructor. Qed.
End Store.

Lemma insert_lookup_total (h : list FileQueueItem) a x :
  (a < length h)%nat -> <[a := x]> h !!! a = x.
Proof.
  intros H. apply list_lookup_total_correct. by apply list_lookup_insert_eq.
Qed.

(** ** One item of a sweep *)

(** The loop body does what [item_step] says. *)
Lemma process_item_step polling e k a st :
  well_formed st ->
  Dict.get k (FILE_QUEUE st) = Some a ->
  item_step polling e k a st
    (fst (process_item polling e (clock e) (k, a) st))
    (snd (process_item polling e (clock e) (k, a) st)).
Proof.
  intros Hwf Hk.
  destruct (well_formed_lookup _ _ _ Hwf Hk) as [o Ho].
  assert (Hlt : (a < length (heap st))%nat) by (by eapply lookup_lt_Some).
  unfold process_item, bind, deref, os_path_getsize, emit, bind; simpl.
  rewrite (list_lookup_total_correct _ _ _ Ho).
  destruct (Z.gtb_spec (next_poll o) (clock e)) as [Hdue|Hdue]; simpl.
  { by eapply item_not_due. }
  destruct (getsize e k) as [n|] eqn:Hsz; simpl.
  2:{ by eapply item_stat_fails. }
  destruct (Z.eqb_spec n (file_size o)) as [->|Hne]; simpl.
  - unfold queue_pop; simpl.
    assert (Dict.contains k (FILE_QUEUE st) = true) as ->
        by (unfold Dict.contains; by rewrite Hk).
    simpl. rewrite (list_lookup_total_correct _ _ _ Ho), <- app_assoc.
    by apply item_ready.
  - unfold plus_seconds, assign; simpl.
    rewrite (list_lookup_total_correct _ _ _ Ho).
    destruct (Datetime.add_seconds (clock e) polling) as [t|] eqn:Ht; simpl.
    + rewrite insert_lookup_total by done.
      rewrite list_insert_insert_eq.
      rewrite (set_present _ _ _ Hk).
      by eapply item_rearm.
    + by eapply item_overflow.
Qed.

(** ** Traces of effects *)

Section Effects.
Implicit Types (st : state) (evs : list effect) (x : effect).

Lemma emitted_app st st' evs :
  trace st' = trace st ++ evs -> emitted st st' = evs.
Proof. unfold emitted. intros ->. apply drop_app_length. Qed.

Lemma extends_app st st' evs : trace st' = trace st ++ evs -> extends st st'.
Proof. intros H. unfold extends. by rewrite (emitted_app _ _ _ H). Qed.

Lemma emitted_refl st : emitted st st = [].
Proof. apply emitted_app. by rewrite app_nil_r. Qed.

Lemma extends_refl st : extends st st.
Proof. apply (extends_app _ _ []). by rewrite app_nil_r. Qed.

Lemma extends_trans st st1 st2 :
  extends st st1 -> extends st1 st2 -> extends st st2.
Proof.
  unfold extends. intros H1 H2.
  apply (extends_app _ _ (emitted st st1 ++ emitted st1 st2)).
  rewrite H2, H1 at 1. by rewrite <- app_assoc.
Qed.

Lemma emitted_trans st st1 st2 :
  extends st st1 -> extends st1 st2 ->
  emitted st st2 = emitted st st1 ++ emitted st1 st2.
Proof.
  unfold extends. intros H1 H2. apply emitted_app.
  rewrite H2, H1 at 1. by rewrite <- app_assoc.
Qed.


Lemma occurrences_cons x y evs :
  occurrences x (y :: evs) =
  ((if decide (y = x) then 1 else 0) + occurrences x evs)%nat.
Proof.
  unfold occurrences. rewrite filter_cons. by destruct (decide (y = x)).
Qed.

Lemma occurrences_app x evs1 evs2 :
  occurrences x (evs1 ++ evs2) = (occurrences x evs1 + occurrences x evs2)%nat.
Proof. unfold occurrences. by rewrite filter_app, length_app. Qed.

Lemma occurrences_0 x evs : occurrences x evs = 0%nat <-> x ∉ evs.
Proof.
  induction evs as [|y evs IH].
  - split; [intros _; apply not_elem_of_nil | done].
  - rewrite occurrences_cons, not_elem_of_cons.
    destruct (decide (y = x)) as [->|Hne]; simpl.
    + split; [discriminate | intros [? _]; done].
    + rewrite IH. split; [intros ?; split; [congruence|done] | tauto].
Qed.

Lemma occurrences_pos x evs : (0 < occurrences x evs)%nat <-> x ∈ evs.
Proof.
  destruct (decide (x ∈ evs)) as [Hin|Hin].
  - split; [done|]. intros _.
    destruct (occurrences x evs) eqn:E; [|lia].
    by apply occurrences_0 in E.
  - apply occurrences_0 in Hin as Hz. rewrite Hz. split; [lia | done].
Qed.
End Effects.

(** Nothing happened between a state and itself. *)
Ltac no_effects :=
  rewrite emitted_refl;
  first [apply not_elem_of_nil | by intros ?%elem_of_nil].

(** ** Facts about one item *)

Section Items.
Variable lower : string -> string.
Variable polling : Z.
Variable e : env.
Implicit Types (st : state) (k p : string) (a : nat) (r : result unit).

Lemma consistent_trace st tr :
  consistent lower st ->
  consistent lower (mkState (heap st) (FILE_QUEUE st) tr).
Proof. intros H p o Hp. by apply H. Qed.

Lemma item_step_invariant k a st r st' :
  queue_invariant lower st ->
  Dict.get k (FILE_QUEUE st) = Some a ->
  item_step polling e k a st r st' ->
  queue_invariant lower st'.
Proof.
  intros [Hwf Hc] Hk Hstep.
  assert (Hkeep : forall x,
    (forall o, heap st !! a = Some o ->
       file_path x = file_path o /\ file_name x = file_name o /\
       file_extention x = file_extention o) ->
    forall tr, queue_invariant lower
      (mkState (<[a := x]> (heap st)) (FILE_QUEUE st) tr)).
  { intros x Hx tr. split; [by apply well_formed_assign|].
    intros p o' Hp. destruct (decide (p = k)) as [->|Hne].
    - rewrite (tracked_assign _ _ _ _ _ Hwf Hk) in Hp.
      injection Hp as <-.
      destruct (well_formed_lookup _ _ _ Hwf Hk) as [o Ho].
      destruct (Hx o Ho) as (-> & -> & ->).
      apply Hc. apply tracked_Some. eauto.
    - rewrite (tracked_assign_other _ _ _ _ _ _ Hwf Hk Hne) in Hp. by apply Hc. }
  inversion Hstep; subst.
  - done.
  - split; [by apply well_formed_trace | by apply consistent_trace].
  - apply Hkeep. intros o' Ho'. by simplify_eq.
  - apply Hkeep. intros o' Ho'. by simplify_eq.
  - split; [by apply well_formed_pop|].
    intros p o' Hp. destruct (decide (p = k)) as [->|Hne].
    + by rewrite tracked_pop in Hp.
    + rewrite tracked_pop_other in Hp by done. by apply Hc.
Qed.

Lemma item_step_other k a st r st' p :
  well_formed st ->
  Dict.get k (FILE_QUEUE st) = Some a ->
  item_step polling e k a st r st' ->
  p <> k ->
  tracked st' p = tracked st p /\
  Dict.get p (FILE_QUEUE st') = Dict.get p (FILE_QUEUE st).
Proof.
  intros Hwf Hk Hstep Hne. inversion Hstep; subst; simpl; try done.
  - by rewrite (tracked_assign_other _ _ _ _ _ _ Hwf Hk Hne).
  - by rewrite (tracked_assign_other _ _ _ _ _ _ Hwf Hk Hne).
  - by rewrite tracked_pop_other, get_remove_ne.
Qed.

Lemma item_step_extends k a st r st' :
  item_step polling e k a st r st' -> extends st st'.
Proof.
  intros Hstep. inversion Hstep; subst;
    first [apply extends_refl | by eapply extends_app].
Qed.

(** An item only measures and reports its own file. *)
Lemma item_step_emitted k a st r st' x :
  queue_invariant lower st ->
  Dict.get k (FILE_QUEUE st) = Some a ->
  item_step polling e k a st r st' ->
  x ∈ emitted st st' ->
  x = Stat k \/ x = Log (ReadyForProcessing k).
Proof.
  intros [Hwf Hc] Hk Hstep.
  inversion Hstep; subst.
  - no_effects.
  - erewrite emitted_app by done. intros ->%list_elem_of_singleton. by left.
  - erewrite emitted_app by done. intros ->%list_elem_of_singleton. by left.
  - erewrite emitted_app by done. intros ->%list_elem_of_singleton. by left.
  - erewrite emitted_app by done.
    assert (file_path o = k) as ->.
    { apply (Hc k o). apply tracked_Some. eauto. }
    intros [->|[->|?%elem_of_nil]%elem_of_cons]%elem_of_cons; auto. done.
Qed.

(** An item that does not measure its file changes nothing. *)
Lemma item_step_unmeasured k a st r st' :
  item_step polling e k a st r st' ->
  Stat k ∉ emitted st st' ->
  r = Ok tt /\ st' = st.
Proof.
  intros Hstep. inversion Hstep; subst; [done|..];
    (erewrite emitted_app by done); intros []; apply elem_of_cons; by left.
Qed.
End Items.

(** ** The loop of a sweep *)

Section Loop.
Variable lower : string -> string.
Variable polling : Z.
Variable e : env.
Implicit Types (st : state) (k p : string) (a : nat) (r : result unit)
         (l : list (string * nat)).

Abbreviation body := (process_item polling e (clock e)).
Abbreviation loop := (sweep_run lower polling e).

Lemma for_each_cons {X} (x : X) xs (f : X -> M unit) st :
  for_each (x :: xs) f st =
  match f x st with
  | (Ok _, st1) => for_each xs f st1
  | (Raise y, st1) => (Raise y, st1)
  end.
Proof. done. Qed.

(** The loop of [sweep] is a run of [sweep_run]. *)
Lemma for_each_run l st :
  queue_invariant lower st ->
  NoDup (Dict.keys l) ->
  (forall k a, (k, a) ∈ l -> Dict.get k (FILE_QUEUE st) = Some a) ->
  loop l st (fst (for_each l body st)) (snd (for_each l body st)).
Proof.
  revert st. induction l as [|[k a] l IH]; intros st Hinv Hnd Hl.
  - by apply run_done.
  - assert (Hk : Dict.get k (FILE_QUEUE st) = Some a) by (apply Hl; left).
    pose proof (process_item_step polling e k a st (proj1 Hinv) Hk) as Hstep.
    rewrite for_each_cons.
    destruct (body (k, a) st) as [[[]|x] st1]; simpl in Hstep.
    + apply NoDup_cons in Hnd as [Hk' Hnd].
      eapply run_item; eauto. apply IH; [by eapply item_step_invariant|done|].
      intros k' a' Hin.
      assert (k' <> k).
      { intros ->. apply Hk'. apply list_elem_of_fmap. by exists (k, a'). }
      destruct (item_step_other polling e k a st _ _ k' (proj1 Hinv) Hk Hstep)
        as [_ ->]; [done|].
      apply Hl. by right.
    + by eapply run_raise.
Qed.

Lemma sweep_run_invariant l st r st' : loop l st r st' -> queue_invariant lower st'.
Proof.
  induction 1; [done|done|]. by eapply item_step_invariant.
Qed.

Lemma sweep_run_invariant_start l st r st' : loop l st r st' -> queue_invariant lower st.
Proof. by destruct 1. Qed.

Lemma sweep_run_extends l st r st' : loop l st r st' -> extends st st'.
Proof.
  induction 1 as [|? ? ? ? ? ? ? _ _ Hstep _ IH|? ? ? ? ? ? _ _ Hstep].
  - apply extends_refl.
  - eapply extends_trans; [|exact IH]. by eapply item_step_extends.
  - by eapply item_step_extends.
Qed.

(** Only files of the snapshot are measured or reported. *)
Lemma sweep_run_emitted l st r st' x :
  loop l st r st' ->
  x ∈ emitted st st' ->
  exists k, k ∈ Dict.keys l /\ (x = Stat k \/ x = Log (ReadyForProcessing k)).
Proof.
  induction 1 as [|k a l st st1 r st2 Hinv Hk Hstep Hrun IH
                  |k a l st y st1 Hinv Hk Hstep].
  - no_effects.
  - rewrite (emitted_trans st st1 st2)
      by eauto using item_step_extends, sweep_run_extends.
    intros [Hx|Hx]%elem_of_app.
    + exists k. split; [left|]. by eapply item_step_emitted.
    + destruct (IH Hx) as (k' & Hk' & Hx'). exists k'. split; [by right|done].
  - intros Hx. exists k. split; [left|]. by eapply item_step_emitted.
Qed.

(** A file that the sweep does not measure keeps its entry, and is
    not reported. *)
Lemma sweep_run_unmeasured l st r st' p :
  loop l st r st' ->
  Stat p ∉ emitted st st' ->
  tracked st' p = tracked st p /\
  Dict.get p (FILE_QUEUE st') = Dict.get p (FILE_QUEUE st) /\
  Log (ReadyForProcessing p) ∉ emitted st st'.
Proof.
  induction 1 as [|k a l st st1 r st2 Hinv Hk Hstep Hrun IH
                  |k a l st y st1 Hinv Hk Hstep].
  - rewrite emitted_refl. intros _. split_and!; try done. apply not_elem_of_nil.
  - rewrite (emitted_trans st st1 st2)
      by eauto using item_step_extends, sweep_run_extends.
    rewrite !not_elem_of_app. intros [Hp1 Hp2].
    destruct (IH Hp2) as (-> & -> & Hr2).
    destruct (decide (p = k)) as [->|Hne].
    + destruct (item_step_unmeasured _ _ _ _ _ _ _ Hstep Hp1) as [_ ->].
      rewrite emitted_refl. split_and!; try done. apply not_elem_of_nil.
    + destruct (item_step_other polling e k a st _ _ p (proj1 Hinv) Hk Hstep Hne)
        as [-> ->].
      split_and!; try done.
      intros Hx. eapply item_step_emitted in Hx as [?|?]; eauto; congruence.
  - intros Hp. destruct (decide (p = k)) as [->|Hne].
    + destruct (item_step_unmeasured _ _ _ _ _ _ _ Hstep Hp) as [? _]. done.
    + destruct (item_step_other polling e k a st _ _ p (proj1 Hinv) Hk Hstep Hne)
        as [-> ->].
      split_and!; try done.
      intros Hx. eapply item_step_emitted in Hx as [?|?]; eauto; congruence.
Qed.

(** Only due files are measured. *)
Lemma item_step_measured_due k a st r st1 :
  item_step polling e k a st r st1 ->
  Dict.get k (FILE_QUEUE st) = Some a ->
  Stat k ∈ emitted st st1 ->
  exists o, tracked st k = Some o /\ next_poll o <= clock e.
Proof.
  intros Hstep Hk Hp. inversion Hstep; subst;
    try (exists o; split; [apply tracked_Some; by eauto | done]).
  rewrite emitted_refl in Hp. by apply elem_of_nil in Hp.
Qed.

Lemma sweep_run_measured_due l st r st' p :
  loop l st r st' ->
  Stat p ∈ emitted st st' ->
  exists o, tracked st p = Some o /\ next_poll o <= clock e.
Proof.
  induction 1 as [|k a l st st1 r st2 Hinv Hk Hstep Hrun IH
                  |k a l st y st1 Hinv Hk Hstep].
  - no_effects.
  - intros Hp. destruct (decide (p = k)) as [->|Hne].
    + destruct (decide (Stat k ∈ emitted st st1)) as [Hp1|Hp1];
        [by eapply item_step_measured_due|].
      destruct (item_step_unmeasured _ _ _ _ _ _ _ Hstep Hp1) as [_ ->]. auto.
    + rewrite (emitted_trans st st1 st2) in Hp
        by eauto using item_step_extends, sweep_run_extends.
      destruct (item_step_other polling e k a st _ _ p (proj1 Hinv) Hk Hstep Hne)
        as [<- _].
      apply elem_of_app in Hp as [Hp|Hp]; [|by auto].
      eapply item_step_emitted in Hp as [?|?]; eauto; congruence.
  - intros Hp.
    eapply item_step_emitted in Hp as Hx; eauto.
    destruct Hx as [[= ->]|[=]]. by eapply item_step_measured_due.
Qed.

Lemma measured_prepend p o r st' evs1 evs2 :
  times_ready p evs1 = 0%nat ->
  measured polling e p o r st' evs2 ->
  measured polling e p o r st' (evs1 ++ evs2).
Proof.
  intros H0 Hm.
  assert (Heq : times_ready p (evs1 ++ evs2) = times_ready p evs2).
  { unfold times_ready in *. rewrite occurrences_app. lia. }
  destruct Hm.
  - apply measured_vanished; congruence.
  - eapply measured_grown; eauto; congruence.
  - eapply measured_overflow; eauto; congruence.
  - apply measured_settled; congruence.
Qed.

(** What the sweep does with a file it measures. *)
Lemma sweep_run_measured l st r st' p o :
  loop l st r st' ->
  NoDup (Dict.keys l) ->
  tracked st p = Some o ->
  Stat p ∈ emitted st st' ->
  measured polling e p o r st' (emitted st st').
Proof.
  induction 1 as [|k a l st st1 r st2 Hinv Hk Hstep Hrun IH
                  |k a l st y st1 Hinv Hk Hstep]; intros Hnd Ho Hp.
  - rewrite emitted_refl in Hp. by apply elem_of_nil in Hp.
  - apply NoDup_cons in Hnd as [Hkl Hnd].
    rewrite (emitted_trans st st1 st2) in *
      by eauto using item_step_extends, sweep_run_extends.
    destruct (decide (p = k)) as [->|Hne].
    + assert (Htail : Stat k ∉ emitted st1 st2).
      { intros (k' & Hk' & [[= ->]|[=]])%(sweep_run_emitted _ _ _ _ _ Hrun). done. }
      destruct (sweep_run_unmeasured _ _ _ _ _ Hrun Htail) as (Ht & _ & Hr).
      apply occurrences_0 in Hr.
      apply elem_of_app in Hp as [Hp|Hp]; [|done].
      apply tracked_Some in Ho as (a' & Ha' & Ho). simplify_eq.
      destruct Hinv as [Hwf Hc].
      inversion Hstep; subst.
      * rewrite emitted_refl in Hp. by apply elem_of_nil in Hp.
      * simplify_eq. eapply measured_grown; eauto.
        -- rewrite Ht. by apply tracked_assign.
        -- erewrite emitted_app by done.
           unfold times_ready in *. rewrite occurrences_app, Hr.
           by rewrite occurrences_cons, decide_False.
      * simplify_eq. apply measured_settled; [done|..].
        -- rewrite Ht. by apply tracked_pop.
        -- erewrite emitted_app by done.
           unfold times_ready in *. rewrite occurrences_app, Hr.
           assert (file_path o = k) as ->.
           { apply (Hc k o). apply tracked_Some. eauto. }
           rewrite !occurrences_cons, decide_False, decide_True by done. done.
    + destruct (item_step_other polling e k a st _ _ p (proj1 Hinv) Hk Hstep Hne)
        as [Ho1 _].
      apply measured_prepend.
      * apply occurrences_0. intros Hx.
        eapply item_step_emitted in Hx as [?|?]; eauto; congruence.
      * apply IH; [done|congruence|].
        apply elem_of_app in Hp as [Hp|Hp]; [|done].
        eapply item_step_emitted in Hp as [?|?]; eauto; congruence.
  - eapply item_step_emitted in Hp as Hx; eauto.
    destruct Hx as [[= ->]|[=]].
    apply tracked_Some in Ho as (a' & Ha' & Ho). simplify_eq.
    inversion Hstep; subst; simplify_eq.
    + apply measured_vanished; try done.
      * apply tracked_Some. eauto.
      * erewrite emitted_app by done. done.
    + eapply measured_overflow; eauto.
      * by apply tracked_assign; [apply Hinv|].
      * erewrite emitted_app by done. done.
Qed.

(** A sweep that ends normally has measured every due file. *)
Lemma sweep_run_complete l st r st' p o :
  loop l st r st' ->
  r = Ok tt ->
  p ∈ Dict.keys l ->
  tracked st p = Some o ->
  next_poll o <= clock e ->
  Stat p ∈ emitted st st'.
Proof.
  induction 1 as [|k a l st st1 r st2 Hinv Hk Hstep Hrun IH
                  |k a l st y st1 Hinv Hk Hstep]; intros Hr Hin Ho Hdue.
  - by apply elem_of_nil in Hin.
  - rewrite (emitted_trans st st1 st2)
      by eauto using item_step_extends, sweep_run_extends.
    apply elem_of_app.
    destruct (decide (p = k)) as [->|Hne].
    + left. apply tracked_Some in Ho as (a' & Ha' & Ho). simplify_eq.
      inversion Hstep; subst; simplify_eq.
      * lia.
      * erewrite emitted_app by done. left.
      * erewrite emitted_app by done. left.
    + right. apply elem_of_cons in Hin as [?|Hin]; [done|].
      destruct (item_step_other polling e k a st _ _ p (proj1 Hinv) Hk Hstep Hne)
        as [Ho1 _].
      apply IH; try done. congruence.
  - discriminate.
Qed.
End Loop.

(** ** The callback *)

Section Callback.
Variable lower : string -> string.
Variable polling : Z.
Implicit Types (st : state) (event : FileSystemEvent) (e : env).

Lemma store_alloc_assign (h : list FileQueueItem) x y :
  <[length h := y]> (h ++ [x]) = h ++ [y].
Proof.
  rewrite insert_app_r_alt by lia. by rewrite Nat.sub_diag.
Qed.

Lemma store_alloc_lookup (h : list FileQueueItem) x :
  (h ++ [x]) !!! length h = x.
Proof.
  apply list_lookup_total_correct.
  rewrite lookup_app_r by lia. by rewrite Nat.sub_diag.
Qed.

(** The callback does what [event_step] says. *)
Lemma on_any_event_step event e st :
  event_step lower polling event e st
    (fst (on_any_event lower polling event e st))
    (snd (on_any_event lower polling event e st)).
Proof.
  unfold on_any_event.
  destruct (is_directory event) eqn:Hdir; simpl.
  { apply event_ignored. by left. }
  destruct (String.eqb_spec (event_type event) "modified") as [Hty|Hty]; simpl.
  2:{ apply event_ignored. by right. }
  assert (Hq : qualifies event) by done.
  unfold bind, queue_contains; cbv beta iota.
  destruct (Dict.contains (src_path event) (FILE_QUEUE st)) eqn:Hin.
  { apply event_known; [done|]. by apply contains_true. }
  apply contains_false in Hin as Hnotin. apply get_None in Hnotin as Hget.
  unfold logger, emit, new_item, assign, os_path_getsize, emit, bind,
    plus_seconds, queue_set, ret, raise; simpl.
  repeat (progress rewrite ?store_alloc_lookup, ?store_alloc_assign).
  destruct (getsize e (src_path event)) as [n|] eqn:Hsz; simpl.
  2:{ rewrite <- app_assoc. by apply event_stat_fails. }
  repeat (progress rewrite ?store_alloc_lookup, ?store_alloc_assign).
  destruct (Datetime.add_seconds (clock e) polling) as [t|] eqn:Ht; simpl.
  - repeat (progress rewrite ?store_alloc_lookup, ?store_alloc_assign).
    rewrite (set_absent _ _ _ Hget), <- app_assoc.
    by apply event_queued.
  - rewrite <- app_assoc. by apply event_overflow.
Qed.

Lemma tracked_alloc st x tr p :
  well_formed st ->
  tracked (mkState (heap st ++ [x]) (FILE_QUEUE st) tr) p = tracked st p.
Proof.
  intros Hwf. unfold tracked; simpl.
  destruct (Dict.get p (FILE_QUEUE st)) as [a|] eqn:Hp; [|done].
  apply lookup_app_l. by eapply well_formed_ref.
Qed.

Lemma well_formed_alloc st x tr :
  well_formed st -> well_formed (mkState (heap st ++ [x]) (FILE_QUEUE st) tr).
Proof.
  intros [H1 H2 H3]. split; simpl; try done.
  eapply Forall_impl; [exact H3|]. intros a Ha. rewrite length_app. simpl in *. lia.
Qed.

Lemma well_formed_queued st x p tr :
  well_formed st -> p ∉ Dict.keys (FILE_QUEUE st) ->
  well_formed (mkState (heap st ++ [x])
                       (FILE_QUEUE st ++ [(p, length (heap st))]) tr).
Proof.
  intros [H1 H2 H3] Hp. unfold Dict.keys, Dict.values in *.
  split; simpl; unfold Dict.keys, Dict.values; rewrite fmap_app; simpl.
  - apply NoDup_app. split_and!; [done| |apply NoDup_singleton].
    intros k Hk ->%list_elem_of_singleton. done.
  - apply NoDup_app. split_and!; [done| |apply NoDup_singleton].
    intros a Ha ->%list_elem_of_singleton.
    rewrite Forall_forall in H3. apply H3 in Ha. lia.
  - apply Forall_app. split.
    + eapply Forall_impl; [exact H3|]. intros a Ha.
      rewrite length_app. simpl in *. lia.
    + apply Forall_singleton. rewrite length_app. simpl. lia.
Qed.

Lemma tracked_queued st x p tr :
  p ∉ Dict.keys (FILE_QUEUE st) ->
  tracked (mkState (heap st ++ [x])
                   (FILE_QUEUE st ++ [(p, length (heap st))]) tr) p = Some x.
Proof.
  intros Hp%get_None. unfold tracked; simpl.
  rewrite <- (set_absent _ _ _ Hp), get_set_eq.
  rewrite lookup_app_r by lia. by rewrite Nat.sub_diag.
Qed.

Lemma tracked_queued_other st x p tr p' :
  well_formed st -> p ∉ Dict.keys (FILE_QUEUE st) -> p' <> p ->
  tracked (mkState (heap st ++ [x])
                   (FILE_QUEUE st ++ [(p, length (heap st))]) tr) p'
  = tracked st p'.
Proof.
  intros Hwf Hp%get_None Hne. unfold tracked; simpl.
  rewrite <- (set_absent _ _ _ Hp), get_set_ne by done.
  destruct (Dict.get p' (FILE_QUEUE st)) as [a|] eqn:Hp'; [|done].
  apply lookup_app_l. by eapply well_formed_ref.
Qed.

Lemma event_step_invariant event e st r st' :
  queue_invariant lower st ->
  event_step lower polling event e st r st' ->
  queue_invariant lower st'.
Proof.
  intros [Hwf Hc] Hstep. inversion Hstep; subst; try done.
  - split; [by apply well_formed_alloc|].
    intros p o. rewrite tracked_alloc by done. apply Hc.
  - split; [by apply well_formed_alloc|].
    intros p o. rewrite tracked_alloc by done. apply Hc.
  - split; [by apply well_formed_queued|].
    intros p o. destruct (decide (p = src_path event)) as [->|Hne].
    + rewrite tracked_queued by done. by intros [= <-].
    + rewrite tracked_queued_other by done. apply Hc.
Qed.

(** The callback leaves the entries of all other paths alone. *)
Lemma event_step_other event e st r st' p :
  well_formed st ->
  event_step lower polling event e st r st' ->
  p <> src_path event ->
  tracked st' p = tracked st p.
Proof.
  intros Hwf Hstep Hne. inversion Hstep; subst; try done.
  - by apply tracked_alloc.
  - by apply tracked_alloc.
  - by apply tracked_queued_other.
Qed.

(** A path that is tracked already keeps its entry. *)
Lemma event_step_tracked event e st r st' p o :
  well_formed st ->
  event_step lower polling event e st r st' ->
  tracked st p = Some o ->
  tracked st' p = Some o.
Proof.
  intros Hwf Hstep Ho.
  assert (Hp : p ∈ Dict.keys (FILE_QUEUE st)).
  { apply tracked_is_Some; [done|]. by rewrite Ho. }
  inversion Hstep; subst; try done.
  - by rewrite tracked_alloc.
  - by rewrite tracked_alloc.
  - rewrite tracked_queued_other; [done..|]. by intros ->.
Qed.

Lemma event_step_extends event e st r st' :
  event_step lower polling event e st r st' -> extends st st'.
Proof.
  intros Hstep. inversion Hstep; subst;
    first [apply extends_refl | by eapply extends_app].
Qed.

(** The callback measures its own path at most once and reports no
    file ready. *)
Lemma event_step_emitted event e st r st' :
  event_step lower polling event e st r st' ->
  emitted st st' = [] \/
  emitted st st' = [Log (AddingToQueue (src_path event)); Stat (src_path event)].
Proof.
  intros Hstep. inversion Hstep; subst;
    first [left; apply emitted_refl | right; by eapply emitted_app].
Qed.
End Callback.

(** ** One sweep *)

Section Sweep.
Variable lower : string -> string.
Variable polling : Z.
Implicit Types (st : state) (e : env) (p : string).

Lemma sweep_is_run e st :
  queue_invariant lower st ->
  sweep_run lower polling e (FILE_QUEUE st) st
    (fst (sweep polling e st)) (snd (sweep polling e st)).
Proof.
  intros Hinv.
  change (sweep polling e st)
    with (for_each (FILE_QUEUE st) (process_item polling e (clock e)) st).
  apply for_each_run; [done|apply Hinv|].
  intros k a. apply elem_get, Hinv.
Qed.

Lemma sweep_invariant e st :
  queue_invariant lower st -> queue_invariant lower (snd (sweep polling e st)).
Proof. intros H. eapply sweep_run_invariant, sweep_is_run, H. Qed.

Lemma sweep_extends e st :
  queue_invariant lower st -> extends st (snd (sweep polling e st)).
Proof. intros H. eapply sweep_run_extends, sweep_is_run, H. Qed.

Lemma sweep_emitted e st x :
  queue_invariant lower st ->
  x ∈ emitted st (snd (sweep polling e st)) ->
  exists k, k ∈ Dict.keys (FILE_QUEUE st) /\
            (x = Stat k \/ x = Log (ReadyForProcessing k)).
Proof. intros H. eapply sweep_run_emitted, sweep_is_run, H. Qed.

Lemma sweep_unmeasured e st p :
  queue_invariant lower st ->
  Stat p ∉ emitted st (snd (sweep polling e st)) ->
  tracked (snd (sweep polling e st)) p = tracked st p /\
  Dict.get p (FILE_QUEUE (snd (sweep polling e st))) = Dict.get p (FILE_QUEUE st) /\
  Log (ReadyForProcessing p) ∉ emitted st (snd (sweep polling e st)).
Proof. intros H. eapply sweep_run_unmeasured, sweep_is_run, H. Qed.

Lemma sweep_measured_due e st p :
  queue_invariant lower st ->
  Stat p ∈ emitted st (snd (sweep polling e st)) ->
  exists o, tracked st p = Some o /\ next_poll o <= clock e.
Proof. intros H. eapply sweep_run_measured_due, sweep_is_run, H. Qed.

Lemma sweep_measured e st p o :
  queue_invariant lower st ->
  tracked st p = Some o ->
  Stat p ∈ emitted st (snd (sweep polling e st)) ->
  measured polling e p o (fst (sweep polling e st)) (snd (sweep polling e st))
           (emitted st (snd (sweep polling e st))).
Proof.
  intros H Ho Hp. eapply sweep_run_measured; eauto using sweep_is_run. apply H.
Qed.

Lemma sweep_complete e st p o :
  queue_invariant lower st ->
  fst (sweep polling e st) = Ok tt ->
  tracked st p = Some o ->
  next_poll o <= clock e ->
  Stat p ∈ emitted st (snd (sweep polling e st)).
Proof.
  intros H Hr Ho Hdue. eapply sweep_run_complete; eauto using sweep_is_run.
  apply tracked_is_Some; [apply H|]. by rewrite Ho.
Qed.

(** A file that is not in the dictionary is neither measured nor
    reported, and stays out. *)
Lemma sweep_absent e st p :
  queue_invariant lower st ->
  tracked st p = None ->
  tracked (snd (sweep polling e st)) p = None /\
  (Stat p ∉ emitted st (snd (sweep polling e st))) /\
  Log (ReadyForProcessing p) ∉ emitted st (snd (sweep polling e st)).
Proof.
  intros H Hp.
  assert (Hs : Stat p ∉ emitted st (snd (sweep polling e st))).
  { intros (o & Ho & _)%sweep_measured_due; [congruence|done]. }
  destruct (sweep_unmeasured e st p H Hs) as (-> & _ & Hr). done.
Qed.

Lemma add_seconds_Some t n t' :
  Datetime.add_seconds t n = Some t' -> t' = t + 1000000 * n.
Proof.
  unfold Datetime.add_seconds, Datetime.timedelta_seconds, Datetime.add.
  destruct (_ <=? _); [|discriminate].
  destruct (_ && _); [|discriminate]. intros [= <-]. lia.
Qed.

(** How a sweep relates the entry of a path before and after: the
    entry was there before, the sweep assigns nothing but the size
    and the next polling time, and a polling time it assigns is the
    time of the sweep plus the polling interval. *)
Lemma sweep_entry e st p o' :
  queue_invariant lower st ->
  tracked (snd (sweep polling e st)) p = Some o' ->
  exists o, tracked st p = Some o /\
    file_path o' = file_path o /\
    file_name o' = file_name o /\
    file_extention o' = file_extention o /\
    (next_poll o' = next_poll o \/
     next_poll o' = clock e + 1000000 * polling).
Proof.
  intros Hinv Ho'.
  destruct (decide (Stat p ∈ emitted st (snd (sweep polling e st)))) as [Hp|Hp].
  - destruct (sweep_measured_due e st p Hinv Hp) as (o & Ho & Hdue).
    exists o. split; [done|].
    destruct (sweep_measured e st p o Hinv Ho Hp)
      as [? ? Ht ?|n t ? ? Ht Ht' ?|n ? ? ? ? Ht ?|? Ht ?]; simplify_eq.
    + split_and!; auto.
    + split_and!; auto. right. by apply add_seconds_Some.
    + split_and!; auto.
  - destruct (sweep_unmeasured e st p Hinv Hp) as (Ht & Hg & _).
    exists o'. rewrite <- Ht. split_and!; auto.
Qed.

(** A sweep adds no key. *)
Lemma sweep_keys e st p :
  queue_invariant lower st ->
  p ∈ Dict.keys (FILE_QUEUE (snd (sweep polling e st))) ->
  p ∈ Dict.keys (FILE_QUEUE st).
Proof.
  intros Hinv Hp.
  apply tracked_is_Some in Hp as [o' Ho']; [|by apply sweep_invariant].
  destruct (sweep_entry e st p o' Hinv Ho') as (o & Ho & _).
  apply tracked_is_Some; [apply Hinv|]. by rewrite Ho.
Qed.
End Sweep.

(** ** Runs of the two threads *)

Section Runs.
Variable lower : string -> string.
Variable polling : Z.
Implicit Types (s : system) (st : state) (e : env) (p : string)
         (acts : list action).

Abbreviation step := (step lower polling).
Abbreviation run := (run lower polling).

Lemma run_cons s a acts : run s (a :: acts) = run (step s a) acts.
Proof. done. Qed.

Lemma step_tick_running s e :
  processor s = Running ->
  memory (step s (Tick e)) = snd (sweep polling e (memory s)) /\
  processor (step s (Tick e)) =
    match fst (sweep polling e (memory s)) with
    | Ok _ => Running
    | Raise x => Ended x
    end.
Proof.
  intros Hr. simpl. rewrite Hr.
  by destruct (sweep polling e (memory s)) as [[[]|x] st'].
Qed.

Lemma step_tick_ended s e x : processor s = Ended x -> step s (Tick e) = s.
Proof. intros Hr. simpl. by rewrite Hr. Qed.

Lemma step_tick_memory s e :
  memory (step s (Tick e)) = memory s \/
  (processor s = Running /\
   memory (step s (Tick e)) = snd (sweep polling e (memory s))).
Proof.
  destruct (processor s) as [|x] eqn:Hr.
  - right. split; [done|]. by apply step_tick_running.
  - left. by rewrite (step_tick_ended _ _ _ Hr).
Qed.

Lemma step_invariant s a :
  queue_invariant lower (memory s) -> queue_invariant lower (memory (step s a)).
Proof.
  intros Hinv. destruct a as [event e|e].
  - simpl. eapply event_step_invariant; [exact Hinv|]. apply on_any_event_step.
  - destruct (step_tick_memory s e) as [->|[_ ->]]; [done|].
    by apply sweep_invariant.
Qed.

Lemma step_extends s a :
  queue_invariant lower (memory s) -> extends (memory s) (memory (step s a)).
Proof.
  intros Hinv. destruct a as [event e|e].
  - simpl. eapply event_step_extends, on_any_event_step.
  - destruct (step_tick_memory s e) as [->|[_ ->]]; [apply extends_refl|].
    by eapply sweep_extends.
Qed.

Lemma steps_invariant s acts :
  queue_invariant lower (memory s) -> queue_invariant lower (memory (run s acts)).
Proof.
  revert s. induction acts as [|a acts IH]; intros s Hinv; [done|].
  rewrite run_cons. by apply IH, step_invariant.
Qed.

Lemma steps_extends s acts :
  queue_invariant lower (memory s) -> extends (memory s) (memory (run s acts)).
Proof.
  revert s. induction acts as [|a acts IH]; intros s Hinv; [apply extends_refl|].
  rewrite run_cons. eapply extends_trans; [by apply step_extends|].
  by apply IH, step_invariant.
Qed.

Lemma steps_emitted s a acts :
  queue_invariant lower (memory s) ->
  emitted (memory s) (memory (run s (a :: acts))) =
  emitted (memory s) (memory (step s a)) ++
  emitted (memory (step s a)) (memory (run (step s a) acts)).
Proof.
  intros Hinv. rewrite run_cons. apply emitted_trans.
  - by apply step_extends.
  - by apply steps_extends, step_invariant.
Qed.

(** One step that does not measure a tracked file leaves its entry
    alone and does not report it. *)
Lemma step_unmeasured s a p o :
  queue_invariant lower (memory s) ->
  tracked (memory s) p = Some o ->
  Stat p ∉ emitted (memory s) (memory (step s a)) ->
  tracked (memory (step s a)) p = Some o /\
  Log (ReadyForProcessing p) ∉ emitted (memory s) (memory (step s a)).
Proof.
  intros Hinv Ho Hp. destruct a as [event e|e].
  - simpl in *.
    pose proof (on_any_event_step lower polling event e (memory s)) as Hstep.
    split; [by eapply event_step_tracked; [apply Hinv|..]|].
    destruct (event_step_emitted _ _ _ _ _ _ _ Hstep) as [->| ->].
    + apply not_elem_of_nil.
    + intros [[=]|[[=]|[]%elem_of_nil]%elem_of_cons]%elem_of_cons.
  - destruct (step_tick_memory s e) as [Hm|[_ Hm]]; rewrite Hm in *.
    + split; [done|]. no_effects.
    + destruct (sweep_unmeasured lower polling e (memory s) p Hinv Hp)
        as (-> & _ & ?). done.
Qed.

(** One step that is no notification for an untracked path leaves
    it untracked, without measuring or reporting it. *)
Lemma step_absent s a p :
  queue_invariant lower (memory s) ->
  tracked (memory s) p = None ->
  ~ notifies p a ->
  tracked (memory (step s a)) p = None /\
  (Stat p ∉ emitted (memory s) (memory (step s a))) /\
  Log (ReadyForProcessing p) ∉ emitted (memory s) (memory (step s a)).
Proof.
  intros Hinv Hp Hn. destruct a as [event e|e].
  - simpl in *.
    pose proof (on_any_event_step lower polling event e (memory s)) as Hstep.
    split.
    { rewrite <- Hp. eapply event_step_other; eauto. apply Hinv. }
    destruct (event_step_emitted _ _ _ _ _ _ _ Hstep) as [->| ->].
    + split; apply not_elem_of_nil.
    + split; intros [[=]|[[=]|[]%elem_of_nil]%elem_of_cons]%elem_of_cons.
      congruence.
  - destruct (step_tick_memory s e) as [Hm|[_ Hm]]; rewrite Hm in *.
    + split; [done|]. rewrite emitted_refl. split; apply not_elem_of_nil.
    + by apply (sweep_absent lower).
Qed.

Lemma steps_unmeasured s acts p o :
  queue_invariant lower (memory s) ->
  tracked (memory s) p = Some o ->
  Stat p ∉ emitted (memory s) (memory (run s acts)) ->
  tracked (memory (run s acts)) p = Some o /\
  Log (ReadyForProcessing p) ∉ emitted (memory s) (memory (run s acts)).
Proof.
  revert s. induction acts as [|a acts IH]; intros s Hinv Ho.
  - simpl. rewrite emitted_refl. split; [done|apply not_elem_of_nil].
  - rewrite steps_emitted by done. rewrite !not_elem_of_app. intros [H1 H2].
    destruct (step_unmeasured s a p o Hinv Ho H1) as [Ho1 Hr1].
    destruct (IH (step s a) (step_invariant _ _ Hinv) Ho1 H2) as [Ho2 Hr2].
    rewrite run_cons. done.
Qed.

Lemma steps_absent s acts p :
  queue_invariant lower (memory s) ->
  tracked (memory s) p = None ->
  Forall (fun a => ~ notifies p a) acts ->
  tracked (memory (run s acts)) p = None /\
  (Stat p ∉ emitted (memory s) (memory (run s acts))) /\
  Log (ReadyForProcessing p) ∉ emitted (memory s) (memory (run s acts)).
Proof.
  revert s. induction acts as [|a acts IH]; intros s Hinv Hp Hacts.
  - simpl. rewrite emitted_refl. split_and!; [done|apply not_elem_of_nil..].
  - apply Forall_cons in Hacts as [Ha Hacts].
    rewrite steps_emitted by done. rewrite !not_elem_of_app.
    destruct (step_absent s a p Hinv Hp Ha) as (Hp1 & Hs1 & Hr1).
    destruct (IH (step s a) (step_invariant _ _ Hinv) Hp1 Hacts)
      as (Hp2 & Hs2 & Hr2).
    rewrite run_cons. done.
Qed.

(** Once the processor thread has ended it stays ended, and nothing
    is reported ready any more. *)
Lemma steps_ended s acts x :
  queue_invariant lower (memory s) ->
  processor s = Ended x ->
  processor (run s acts) = Ended x /\
  forall q, Log (ReadyForProcessing q) ∉ emitted (memory s) (memory (run s acts)).
Proof.
  revert s. induction acts as [|a acts IH]; intros s Hinv Hx.
  - simpl. split; [done|]. intros q. no_effects.
  - assert (Ha : processor (step s a) = Ended x /\
                 forall q, Log (ReadyForProcessing q)
                           ∉ emitted (memory s) (memory (step s a))).
    { destruct a as [event e|e].
      - split; [done|]. intros q. simpl.
        pose proof (on_any_event_step lower polling event e (memory s)) as Hstep.
        destruct (event_step_emitted _ _ _ _ _ _ _ Hstep) as [->| ->].
        + apply not_elem_of_nil.
        + intros [[=]|[[=]|[]%elem_of_nil]%elem_of_cons]%elem_of_cons.
      - rewrite (step_tick_ended _ _ _ Hx). split; [done|].
        intros q. no_effects. }
    destruct Ha as [Hx1 Hr1].
    destruct (IH (step s a) (step_invariant _ _ Hinv) Hx1) as [Hx2 Hr2].
    rewrite steps_emitted by done. rewrite run_cons. split; [done|].
    intros q. rewrite not_elem_of_app. auto.
Qed.

(** A processor thread that has ended measures nothing any more:
    tracked files are never looked at again. *)
Lemma steps_ended_tracked s acts x p o :
  queue_invariant lower (memory s) ->
  processor s = Ended x ->
  tracked (memory s) p = Some o ->
  tracked (memory (run s acts)) p = Some o /\
  Stat p ∉ emitted (memory s) (memory (run s acts)).
Proof.
  revert s. induction acts as [|a acts IH]; intros s Hinv Hx Ho.
  - simpl. split; [done|]. no_effects.
  - assert (Ha : processor (step s a) = Ended x /\
                 Stat p ∉ emitted (memory s) (memory (step s a))).
    { destruct a as [event e|e].
      - split; [done|]. simpl.
        pose proof (on_any_event_step lower polling event e (memory s)) as Hstep.
        assert (Hp : p ∈ Dict.keys (FILE_QUEUE (memory s))).
        { apply tracked_is_Some; [apply Hinv|]. by rewrite Ho. }
        inversion Hstep as [| | |? ? Hnew|? ? ? Hnew]; subst;
          try (no_effects);
          (erewrite emitted_app by done);
          intros [[=]|[[= ->]|[]%elem_of_nil]%elem_of_cons]%elem_of_cons; done.
      - rewrite (step_tick_ended _ _ _ Hx). split; [done|].
        no_effects. }
    destruct Ha as [Hx1 Hs1].
    destruct (step_unmeasured s a p o Hinv Ho Hs1) as [Ho1 _].
    destruct (IH (step s a) (step_invariant _ _ Hinv) Hx1 Ho1) as [Ho2 Hs2].
    rewrite steps_emitted by done. rewrite run_cons. split; [done|].
    rewrite not_elem_of_app. auto.
Qed.

(** The thread's loop is the sequence of its ticks. *)
Lemma process_file_ticks es st :
  run (mkSystem st Running) (Tick <$> es) =
  mkSystem (snd (process_file polling es st))
           (match fst (process_file polling es st) with
            | Ok _ => Running
            | Raise x => Ended x
            end).
Proof.
  revert st. induction es as [|e es IH]; intros st; [done|].
  rewrite fmap_cons, run_cons. simpl. unfold bind.
  destruct (sweep polling e st) as [[[]|x] st1]; simpl.
  - apply IH.
  - clear IH. induction es as [|e' es IH]; [done|].
    rewrite fmap_cons, run_cons. apply IH.
Qed.

Lemma main_effects ds e st :
  main (Some ds) e st =
  (Ok tt, mkState (heap st) (FILE_QUEUE st)
                  (trace st ++ ProcessorStarted :: flat_map (monitor_effects e) ds)).
Proof.
  unfold main, bind, emit.
  assert (Hloop : forall tr,
    for_each ds (fun directory =>
        if path_exists e directory
        then (emit (Watch directory);; logger (AddingMonitor directory))%prog
        else logger (DoesNotExist directory))
      (mkState (heap st) (FILE_QUEUE st) tr)
    = (Ok tt, mkState (heap st) (FILE_QUEUE st)
                      (tr ++ flat_map (monitor_effects e) ds))).
  { induction ds as [|d ds IH]; intros tr; simpl.
    - unfold ret. by rewrite app_nil_r.
    - unfold bind, monitor_effects, logger, emit.
      destruct (path_exists e d); simpl; rewrite IH, <- !app_assoc; done. }
  rewrite Hloop. by rewrite <- app_assoc.
Qed.

Lemma main_memory ds e st :
  heap (snd (main ds e st)) = heap st /\
  FILE_QUEUE (snd (main ds e st)) = FILE_QUEUE st.
Proof.
  destruct ds as [ds|]; [by rewrite main_effects|done].
Qed.

(** The invariant holds throughout. *)
Lemma reachable_invariant st :
  reachable lower polling st -> queue_invariant lower st.
Proof.
  induction 1 as [|st ds e _ IH|st event e _ IH|st e _ IH].
  - split; [apply well_formed_initial|]. intros p o [=].
  - destruct (main_memory ds e st) as [Hh Hq]. destruct IH as [[H1 H2 H3] Hc].
    split.
    + split; by rewrite ?Hh, ?Hq.
    + intros p o. unfold tracked. rewrite Hh, Hq. apply Hc.
  - eapply event_step_invariant; [exact IH|]. apply on_any_event_step.
  - by apply sweep_invariant.
Qed.
End Runs.

(** ** The sample states satisfy the invariant *)

Lemma staged_invariant : queue_invariant Sample.lower (memory Sample.staged).
Proof.
  apply (reachable_invariant Sample.lower 2).
  apply (reach_event Sample.lower 2 initial_state), reach_initial.
Qed.

Lemma staged_both_invariant :
  queue_invariant Sample.lower (memory Sample.staged_both).
Proof.
  apply (reachable_invariant Sample.lower 2).
  apply (reach_event Sample.lower 2), (reach_event Sample.lower 2 initial_state),
    reach_initial.
Qed.

(** X14.  A tick of the running processor that does not end the thread
    has measured every file that was due: no due entry is skipped. *)
Lemma tick_measures_due lower polling s e p o :
  queue_invariant lower (memory s) ->
  processor s = Running ->
  processor (step lower polling s (Tick e)) = Running ->
  tracked (memory s) p = Some o ->
  next_poll o <= clock e ->
  Stat p ∈ emitted (memory s) (memory (step lower polling s (Tick e))).
Proof.
  intros Hinv Hrun Hrun1 Ho Hdue.
  destruct (step_tick_running lower polling s e Hrun) as [-> Hp].
  rewrite Hp in Hrun1.
  destruct (fst (sweep polling e (memory s))) as [[]|x] eqn:Hr; [|discriminate].
  by eapply sweep_complete.
Qed.

(** * The properties of the specification *)

(** C1.  Settle detection.  A tick of the processor that measures a
    tracked file and finds the size recorded at the previous
    measurement removes the entry and reports the file ready exactly
    once.  The tick was due for the file.  Whatever the two threads do
    afterwards, short of a new notification for the same path, the file
    stays out of the dictionary and is not reported again. *)
Theorem settle_detection lower polling s e rest p o :
  queue_invariant lower (memory s) ->
  tracked (memory s) p = Some o ->
  Stat p ∈ emitted (memory s) (memory (step lower polling s (Tick e))) ->
  getsize e p = Some (file_size o) ->
  Forall (fun a => ~ notifies p a) rest ->
  let s1 := step lower polling s (Tick e) in
  let s2 := run lower polling s1 rest in
  next_poll o <= clock e /\
  tracked (memory s1) p = None /\
  times_ready p (emitted (memory s) (memory s1)) = 1%nat /\
  tracked (memory s2) p = None /\
  times_ready p (emitted (memory s) (memory s2)) = 1%nat.
Proof.
  intros Hinv Ho Hp Hsz Hrest s1 s2.
  assert (Hs1 : queue_invariant lower (memory s1)) by by apply step_invariant.
  destruct (step_tick_memory lower polling s e) as [Hm|[_ Hm]].
  { unfold s1 in *. rewrite Hm, emitted_refl in Hp. by apply elem_of_nil in Hp. }
  fold s1 in Hm, Hp. rewrite Hm in Hp.
  destruct (sweep_measured_due lower polling e _ p Hinv Hp) as (o' & Ho' & Hdue).
  assert (o' = o) as -> by congruence. clear Ho'.
  destruct (sweep_measured lower polling e _ p o Hinv Ho Hp)
    as [? ? ? ?|n t ? ? ? ? ?|n ? ? ? ? ? ?|_ Hgone Hone]; simplify_eq.
  rewrite <- Hm in Hgone, Hone.
  destruct (steps_absent lower polling s1 rest p Hs1 Hgone Hrest) as (Hgone2 & _ & Hr2).
  split_and!; try done.
  unfold s2. rewrite (emitted_trans (memory s) (memory s1)).
  - unfold times_ready in *. rewrite occurrences_app, Hone.
    apply occurrences_0 in Hr2. rewrite Hr2. done.
  - by apply step_extends.
  - by apply steps_extends.
Qed.

Lemma settle_detection_witness :
  let s1 := step Sample.lower 2 Sample.staged (Tick (Sample.world 2 [(Sample.a_txt, 100)])) in
  let s2 := run Sample.lower 2 s1
              [Tick (Sample.world 3 [(Sample.a_txt, 100)]);
               Notify (Sample.modified Sample.b_txt)
                      (Sample.world 3 [(Sample.a_txt, 100); (Sample.b_txt, 7)]);
               Tick (Sample.world 5 [(Sample.a_txt, 100); (Sample.b_txt, 7)])] in
  tracked (memory s1) Sample.a_txt = None /\
  times_ready Sample.a_txt (emitted (memory Sample.staged) (memory s2)) = 1%nat.
Proof.
  intros s1 s2.
  destruct (settle_detection Sample.lower 2 Sample.staged
              (Sample.world 2 [(Sample.a_txt, 100)])
              [Tick (Sample.world 3 [(Sample.a_txt, 100)]);
               Notify (Sample.modified Sample.b_txt)
                      (Sample.world 3 [(Sample.a_txt, 100); (Sample.b_txt, 7)]);
               Tick (Sample.world 5 [(Sample.a_txt, 100); (Sample.b_txt, 7)])]
              Sample.a_txt
              (mkItem Sample.a_txt 100 "a.txt" ".txt" 2000000))
    as (_ & H1 & _ & _ & H2).
  - exact staged_invariant.
  - reflexivity.
  - vm_compute. constructor.
  - reflexivity.
  - repeat constructor; vm_compute; first [tauto | discriminate].
  - split; [exact H1 | exact H2].
Defined.

(** C2.  Re-arm on growth.  A tick that measures a tracked file and
    finds a size [n] other than the recorded one keeps the entry,
    records [n] and sets the next polling time to the time of the tick
    plus the polling interval (which must be a representable
    [datetime]).  Steps that do not measure the file leave the entry as
    it is, and the next tick that measures it and finds [n] again
    removes the entry and reports the file ready, once. *)
Theorem rearm_on_growth lower polling s e1 mid e2 p o n t :
  queue_invariant lower (memory s) ->
  tracked (memory s) p = Some o ->
  let s1 := step lower polling s (Tick e1) in
  let s2 := run lower polling s1 mid in
  let s3 := step lower polling s2 (Tick e2) in
  Stat p ∈ emitted (memory s) (memory s1) ->
  getsize e1 p = Some n ->
  n <> file_size o ->
  Datetime.add_seconds (clock e1) polling = Some t ->
  Stat p ∉ emitted (memory s1) (memory s2) ->
  Stat p ∈ emitted (memory s2) (memory s3) ->
  getsize e2 p = Some n ->
  tracked (memory s1) p = Some (with_next_poll t (with_file_size n o)) /\
  t = clock e1 + 1000000 * polling /\
  (0 < polling -> next_poll o < t) /\
  tracked (memory s2) p = Some (with_next_poll t (with_file_size n o)) /\
  tracked (memory s3) p = None /\
  times_ready p (emitted (memory s) (memory s2)) = 0%nat /\
  times_ready p (emitted (memory s2) (memory s3)) = 1%nat.
Proof.
  intros Hinv Ho s1 s2 s3 Hp1 Hsz1 Hne Ht Hmid Hp3 Hsz3.
  assert (Hs1 : queue_invariant lower (memory s1)) by by apply step_invariant.
  assert (Hs2 : queue_invariant lower (memory s2)) by by apply steps_invariant.
  (* the first measurement *)
  destruct (step_tick_memory lower polling s e1) as [Hm|[_ Hm]]; fold s1 in Hm.
  { rewrite Hm, emitted_refl in Hp1. by apply elem_of_nil in Hp1. }
  rewrite Hm in Hp1.
  assert (Hdue : next_poll o <= clock e1).
  { destruct (sweep_measured_due lower polling e1 _ p Hinv Hp1) as (o' & ? & ?).
    by simplify_eq. }
  destruct (sweep_measured lower polling e1 _ p o Hinv Ho Hp1)
    as [? ? ? ?|n' t' ? ? ? Harmed Hr1|n' ? ? ? ? ? ?|? ? ?]; simplify_eq.
  rewrite <- Hm in Harmed, Hr1.
  (* nothing in between *)
  destruct (steps_unmeasured lower polling s1 mid p _ Hs1 Harmed Hmid)
    as [Hkept Hr2]. fold s2 in Hkept, Hr2.
  (* the second measurement *)
  destruct (step_tick_memory lower polling s2 e2) as [Hm3|[_ Hm3]]; fold s3 in Hm3.
  { rewrite Hm3, emitted_refl in Hp3. by apply elem_of_nil in Hp3. }
  rewrite Hm3 in Hp3.
  destruct (sweep_measured lower polling e2 _ p _ Hs2 Hkept Hp3)
    as [? ? ? ?|n' t' ? Hne' ? ? ?|n' ? Hne' ? ? ? ?|_ Hgone Hone];
    simplify_eq; try (by destruct Hne').
  rewrite <- Hm3 in Hgone, Hone.
  split_and!; try done.
  - by apply add_seconds_Some.
  - apply add_seconds_Some in Ht. lia.
  - rewrite (emitted_trans (memory s) (memory s1)).
    + unfold times_ready in *. rewrite occurrences_app, Hr1.
      apply occurrences_0 in Hr2. by rewrite Hr2.
    + by apply step_extends.
    + by apply steps_extends.
Qed.

Lemma rearm_on_growth_witness :
  let grown := Sample.world 2 [(Sample.a_txt, 150)] in
  let s1 := step Sample.lower 2 Sample.staged (Tick grown) in
  let s2 := run Sample.lower 2 s1 [Tick (Sample.world 3 [(Sample.a_txt, 150)])] in
  let s3 := step Sample.lower 2 s2 (Tick (Sample.world 4 [(Sample.a_txt, 150)])) in
  tracked (memory s1) Sample.a_txt =
    Some (mkItem Sample.a_txt 150 "a.txt" ".txt" 4000000) /\
  tracked (memory s3) Sample.a_txt = None /\
  times_ready Sample.a_txt (emitted (memory s2) (memory s3)) = 1%nat.
Proof.
  intros grown s1 s2 s3.
  destruct (rearm_on_growth Sample.lower 2 Sample.staged grown
              [Tick (Sample.world 3 [(Sample.a_txt, 150)])]
              (Sample.world 4 [(Sample.a_txt, 150)])
              Sample.a_txt (mkItem Sample.a_txt 100 "a.txt" ".txt" 2000000) 150 4000000)
    as (H1 & _ & _ & _ & H3 & _ & H4).
  - exact staged_invariant.
  - reflexivity.
  - vm_compute. constructor.
  - reflexivity.
  - discriminate.
  - reflexivity.
  - vm_compute. intros H. inversion H.
  - vm_compute. constructor.
  - reflexivity.
  - split; [exact H1 | split; [exact H3 | exact H4]].
Defined.

Lemma on_any_event_known lower polling event e st :
  src_path event ∈ Dict.keys (FILE_QUEUE st) ->
  on_any_event lower polling event e st = (Ok tt, st).
Proof.
  intros Hin.
  pose proof (on_any_event_step lower polling event e st) as Hstep.
  destruct (on_any_event lower polling event e st) as [r st']. simpl in Hstep.
  inversion Hstep; subst; done.
Qed.

Lemma NoDup_filter_eq (l : list string) x :
  NoDup l -> x ∈ l -> length (filter (fun k => k = x) l) = 1%nat.
Proof.
  induction l as [|y l IH]; intros Hnd Hin; [by apply elem_of_nil in Hin|].
  apply NoDup_cons in Hnd as [Hy Hnd]. rewrite filter_cons.
  destruct (decide (y = x)) as [->|Hne]; simpl.
  - f_equal. apply length_zero_iff_nil.
    destruct (filter (fun k => k = x) l) as [|z zs] eqn:E; [done|].
    assert (Hz : z ∈ filter (fun k => k = x) l) by (rewrite E; left).
    apply list_elem_of_filter in Hz as [-> Hz]. done.
  - apply IH; [done|]. apply elem_of_cons in Hin as [?|?]; [congruence|done].
Qed.

Lemma entries_for_tracked st p o :
  well_formed st -> tracked st p = Some o -> entries_for p st = 1%nat.
Proof.
  intros Hwf Ho. apply NoDup_filter_eq; [apply Hwf|].
  apply tracked_is_Some; [done|]. by rewrite Ho.
Qed.

(** A qualifying notification for a new path that returns has queued
    the path. *)
Lemma on_any_event_queued lower polling event e st :
  qualifies event ->
  src_path event ∉ Dict.keys (FILE_QUEUE st) ->
  fst (on_any_event lower polling event e st) = Ok tt ->
  exists n t,
    getsize e (src_path event) = Some n /\
    Datetime.add_seconds (clock e) polling = Some t /\
    snd (on_any_event lower polling event e st) =
      mkState (heap st ++
                 [mkItem (src_path event) n (Path.basename (src_path event))
                         (lower (snd (Path.splitext (src_path event)))) t])
              (FILE_QUEUE st ++ [(src_path event, length (heap st))])
              (trace st ++ [Log (AddingToQueue (src_path event));
                            Stat (src_path event)]).
Proof.
  intros [Hdir Hty] Hnew Hok.
  pose proof (on_any_event_step lower polling event e st) as Hstep.
  destruct (on_any_event lower polling event e st) as [r st']. simpl in *.
  subst r. inversion Hstep as [[?|?]| | | |n t]; subst; try congruence; eauto.
Qed.

(** C3.  Idempotent ingest.  After a notification has queued a new
    path, a second notification for that path, with whatever the file
    system and the clock then show, changes nothing at all: the
    dictionary holds one entry for the path, with the size measured by
    the first call. *)
Theorem idempotent_ingest lower polling st event e1 event' e2 :
  queue_invariant lower st ->
  qualifies event ->
  tracked st (src_path event) = None ->
  fst (on_any_event lower polling event e1 st) = Ok tt ->
  src_path event' = src_path event ->
  let st1 := snd (on_any_event lower polling event e1 st) in
  on_any_event lower polling event' e2 st1 = (Ok tt, st1) /\
  entries_for (src_path event) st1 = 1%nat /\
  exists o, tracked st1 (src_path event) = Some o /\
            getsize e1 (src_path event) = Some (file_size o).
Proof.
  intros Hinv Hq Hnew Hok Hpath st1.
  assert (Hs1 : queue_invariant lower st1).
  { eapply event_step_invariant; [exact Hinv|]. apply on_any_event_step. }
  assert (Habsent : src_path event ∉ Dict.keys (FILE_QUEUE st)).
  { intros Hin%tracked_is_Some; [|apply Hinv]. rewrite Hnew in Hin.
    by destruct Hin. }
  destruct (on_any_event_queued lower polling event e1 st Hq Habsent Hok)
    as (n & t & Hsz & Ht & Hst1).
  fold st1 in Hst1.
  assert (Ho : tracked st1 (src_path event) =
               Some (mkItem (src_path event) n (Path.basename (src_path event))
                      (lower (snd (Path.splitext (src_path event)))) t)).
  { rewrite Hst1. by apply tracked_queued. }
  split_and!.
  - apply on_any_event_known. rewrite Hpath.
    apply tracked_is_Some; [apply Hs1|]. by rewrite Ho.
  - eapply entries_for_tracked; [apply Hs1|exact Ho].
  - eexists. split; [exact Ho|done].
Qed.

Lemma idempotent_ingest_witness :
  let first := Sample.world 0 [(Sample.a_txt, 100)] in
  let again := Sample.world 1 [(Sample.a_txt, 130)] in
  let st1 := snd (on_any_event Sample.lower 2 (Sample.modified Sample.a_txt) first
                               initial_state) in
  on_any_event Sample.lower 2 (Sample.modified Sample.a_txt) again st1 = (Ok tt, st1) /\
  entries_for Sample.a_txt st1 = 1%nat /\
  file_size <$> tracked st1 Sample.a_txt = Some 100.
Proof.
  intros first again st1.
  destruct (idempotent_ingest Sample.lower 2 initial_state
              (Sample.modified Sample.a_txt) first (Sample.modified Sample.a_txt) again)
    as (H1 & H2 & _).
  - apply (reachable_invariant Sample.lower 2), reach_initial.
  - split; reflexivity.
  - reflexivity.
  - reflexivity.
  - reflexivity.
  - split; [exact H1 | split; [exact H2 | reflexivity]].
Defined.

(** C4.  Due-time gating.  A sweep that runs before the next polling
    time of an entry does not measure the file and leaves the entry,
    with every field, as it was. *)
Theorem due_time_gating lower polling st e p o :
  queue_invariant lower st ->
  tracked st p = Some o ->
  clock e < next_poll o ->
  let st' := snd (sweep polling e st) in
  times_stat p (emitted st st') = 0%nat /\
  tracked st' p = Some o /\
  Dict.get p (FILE_QUEUE st') = Dict.get p (FILE_QUEUE st) /\
  times_ready p (emitted st st') = 0%nat.
Proof.
  intros Hinv Ho Hlater st'.
  assert (Hp : Stat p ∉ emitted st st').
  { intros (o' & Ho' & Hdue)%(sweep_measured_due lower); [|done].
    simplify_eq. lia. }
  destruct (sweep_unmeasured lower polling e st p Hinv Hp) as (Ht & Hg & Hr).
  fold st' in Ht, Hg, Hr.
  split_and!; [by apply occurrences_0|congruence|done|by apply occurrences_0].
Qed.

Lemma due_time_gating_witness :
  let st' := snd (sweep 2 (Sample.world 1 [(Sample.a_txt, 150)]) (memory Sample.staged)) in
  times_stat Sample.a_txt (emitted (memory Sample.staged) st') = 0%nat /\
  tracked st' Sample.a_txt = Some (mkItem Sample.a_txt 100 "a.txt" ".txt" 2000000).
Proof.
  intros st'.
  destruct (due_time_gating Sample.lower 2 (memory Sample.staged)
              (Sample.world 1 [(Sample.a_txt, 150)]) Sample.a_txt
              (mkItem Sample.a_txt 100 "a.txt" ".txt" 2000000))
    as (H1 & H2 & _).
  - exact staged_invariant.
  - reflexivity.
  - reflexivity.
  - split; [exact H1 | exact H2].
Defined.

(** C5 does not hold as stated: with [D/a.txt] gone from the file
    system, the callback for a modification of [D/a.txt] does not
    return normally. *)
Lemma vanished_file_not_dropped_silently :
  getsize (Sample.world 0 []) Sample.a_txt = None /\
  ~ dropped_silently Sample.lower 2 (Sample.modified Sample.a_txt)
                     (Sample.world 0 []) initial_state.
Proof. split; [reflexivity|]. intros [H _]. vm_compute in H. discriminate. Qed.

(** C5, as the program has it.  When the file of a qualifying
    notification for a path that is not yet tracked cannot be measured,
    the callback raises the [OSError] of [os.path.getsize] to its
    caller, after logging that it adds the file; the dictionary is
    unchanged and the path is not tracked. *)
Theorem vanished_file_raises lower polling st event e :
  qualifies event ->
  src_path event ∉ Dict.keys (FILE_QUEUE st) ->
  getsize e (src_path event) = None ->
  let st' := snd (on_any_event lower polling event e st) in
  fst (on_any_event lower polling event e st) = Raise OSError /\
  FILE_QUEUE st' = FILE_QUEUE st /\
  tracked st' (src_path event) = None /\
  emitted st st' = [Log (AddingToQueue (src_path event)); Stat (src_path event)].
Proof.
  intros [Hdir Hty] Hnew Hsz st'.
  pose proof (on_any_event_step lower polling event e st) as Hstep.
  fold st' in Hstep.
  destruct (on_any_event lower polling event e st) as [r st0]. simpl in *.
  subst st'.
  inversion Hstep as [[?|?]| | | |]; subst; try congruence.
  split_and!; try done.
  - apply tracked_None_absent. simpl. by apply get_None.
  - by eapply emitted_app.
Qed.

Lemma vanished_file_raises_witness :
  fst (on_any_event Sample.lower 2 (Sample.modified Sample.a_txt)
                    (Sample.world 0 []) initial_state) = Raise OSError.
Proof.
  destruct (vanished_file_raises Sample.lower 2 initial_state
              (Sample.modified Sample.a_txt) (Sample.world 0 [])) as (H & _).
  - split; reflexivity.
  - apply not_elem_of_nil.
  - reflexivity.
  - exact H.
Defined.

(** C6 does not hold as stated: with [D/a.txt] and [D/b.txt] staged
    and [D/a.txt] gone at the tick of time 2, the tick of time 3 does
    not measure [D/a.txt] again (and [D/b.txt], whose size has settled,
    is never reported). *)
Lemma orphan_not_retried :
  getsize (Sample.world 2 [(Sample.b_txt, 20)]) Sample.a_txt = None /\
  ~ orphan_retried Sample.lower 2 Sample.staged_both
      (Sample.world 2 [(Sample.b_txt, 20)]) (Sample.world 3 [(Sample.b_txt, 20)])
      Sample.a_txt Sample.b_txt.
Proof.
  split; [reflexivity|]. intros (_ & H & _). vm_compute in H. inversion H.
Qed.

(** C6, as the program has it.  When a tracked file that is due cannot
    be measured, the entry stays in the dictionary untouched, and the
    exception ends the processor thread: through all later steps the
    thread stays ended, the entry stays as it is and is never measured
    again, and no file is reported ready any more. *)
Theorem stat_failure_ends_sweeping lower polling s e p o rest :
  queue_invariant lower (memory s) ->
  processor s = Running ->
  tracked (memory s) p = Some o ->
  next_poll o <= clock e ->
  getsize e p = None ->
  let s1 := step lower polling s (Tick e) in
  let s2 := run lower polling s1 rest in
  tracked (memory s1) p = Some o /\
  (exists x, processor s1 = Ended x /\ processor s2 = Ended x) /\
  tracked (memory s2) p = Some o /\
  times_stat p (emitted (memory s1) (memory s2)) = 0%nat /\
  forall q, times_ready q (emitted (memory s1) (memory s2)) = 0%nat.
Proof.
  intros Hinv Hrun Ho Hdue Hsz s1 s2.
  assert (Hs1 : queue_invariant lower (memory s1)) by by apply step_invariant.
  destruct (step_tick_running lower polling s e Hrun) as [Hm Hproc].
  fold s1 in Hm, Hproc.
  (* the pass raises and leaves the entry as it was *)
  assert (Hpass : tracked (memory s1) p = Some o /\
                  exists x, fst (sweep polling e (memory s)) = Raise x).
  { rewrite Hm.
    destruct (decide (Stat p ∈ emitted (memory s) (snd (sweep polling e (memory s)))))
      as [Hp|Hp].
    - destruct (sweep_measured lower polling e _ p o Hinv Ho Hp)
        as [_ Hr Ht _|n t ? ? ? ? ?|n ? ? ? ? ? ?|? ? ?]; simplify_eq.
      split; [done|]. eauto.
    - destruct (sweep_unmeasured lower polling e _ p Hinv Hp) as (-> & _ & _).
      split; [done|].
      destruct (fst (sweep polling e (memory s))) as [[]|x] eqn:Hr; [|eauto].
      destruct Hp. by eapply sweep_complete. }
  destruct Hpass as [Ho1 [x Hx]]. rewrite Hx in Hproc.
  destruct (steps_ended lower polling s1 rest x Hs1 Hproc) as [Hproc2 Hr2].
  destruct (steps_ended_tracked lower polling s1 rest x p o Hs1 Hproc Ho1)
    as [Ho2 Hs2].
  fold s2 in Hproc2, Hr2, Ho2, Hs2.
  split_and!; eauto.
  - by apply occurrences_0.
  - intros q. by apply occurrences_0.
Qed.

Lemma stat_failure_ends_sweeping_witness :
  let s1 := step Sample.lower 2 Sample.staged_both (Tick (Sample.world 2 [(Sample.b_txt, 20)])) in
  let s2 := run Sample.lower 2 s1
              [Tick (Sample.world 3 [(Sample.b_txt, 20)]);
               Tick (Sample.world 4 [(Sample.b_txt, 20)])] in
  tracked (memory s2) Sample.a_txt = Some (mkItem Sample.a_txt 10 "a.txt" ".txt" 2000000) /\
  times_ready Sample.b_txt (emitted (memory s1) (memory s2)) = 0%nat.
Proof.
  intros s1 s2.
  destruct (stat_failure_ends_sweeping Sample.lower 2 Sample.staged_both
              (Sample.world 2 [(Sample.b_txt, 20)]) Sample.a_txt
              (mkItem Sample.a_txt 10 "a.txt" ".txt" 2000000)
              [Tick (Sample.world 3 [(Sample.b_txt, 20)]);
               Tick (Sample.world 4 [(Sample.b_txt, 20)])])
    as (_ & _ & H1 & _ & H2).
  - apply (reachable_invariant Sample.lower 2).
    apply (reach_event Sample.lower 2), (reach_event Sample.lower 2 initial_state),
      reach_initial.
  - reflexivity.
  - reflexivity.
  - vm_compute. discriminate.
  - reflexivity.
  - split; [exact H1 | exact (H2 Sample.b_txt)].
Defined.

(** C7.  The callback acts on modifications of files only: for a
    directory event, or an event of any type other than ['modified'],
    it returns with the state (dictionary, objects and trace)
    unchanged. *)
Theorem only_file_modifications lower polling st event e :
  is_directory event = true \/ event_type event <> "modified" ->
  on_any_event lower polling event e st = (Ok tt, st).
Proof.
  intros Hother.
  pose proof (on_any_event_step lower polling event e st) as Hstep.
  destruct (on_any_event lower polling event e st) as [r st']. simpl in Hstep.
  inversion Hstep as [|[]|[]|? []|? ? []]; subst; try done;
    destruct Hother; congruence.
Qed.

Lemma only_file_modifications_witness :
  on_any_event Sample.lower 2 (mkEvent false "created" Sample.b_txt)
               (Sample.world 1 [(Sample.b_txt, 5)]) (memory Sample.staged)
  = (Ok tt, memory Sample.staged) /\
  on_any_event Sample.lower 2 (mkEvent true "modified" "D")
               (Sample.world 1 [(Sample.b_txt, 5)]) (memory Sample.staged)
  = (Ok tt, memory Sample.staged).
Proof.
  split.
  - apply (only_file_modifications Sample.lower 2). right. discriminate.
  - apply (only_file_modifications Sample.lower 2). left. reflexivity.
Defined.

(** C8.  Arming.  Every arming gives the entry the clock reading of
    that moment plus the polling interval (in microseconds) as its next
    polling time.  At ingest: the callback for a qualifying
    notification of an untracked path, whose file can be measured at a
    time from which the interval can be added, leaves the path tracked
    with that time.  At a re-arm: a tick that measures a tracked file
    and finds a size other than the recorded one leaves it tracked with
    that time; so does, put by the inputs alone, a tick of the running
    processor at which the entry is due and the file has another size,
    when the thread survives the tick.  And no step gives an entry any
    other time: after a step an entry has the time it had before or the
    clock reading of the step plus the interval, and a new entry has
    the latter. *)
Theorem next_poll_is_now_plus_interval lower polling s p :
  queue_invariant lower (memory s) ->
  (forall event e n t,
     src_path event = p ->
     qualifies event ->
     tracked (memory s) p = None ->
     getsize e p = Some n ->
     Datetime.add_seconds (clock e) polling = Some t ->
     exists o',
       tracked (memory (step lower polling s (Notify event e))) p = Some o' /\
       next_poll o' = clock e + 1000000 * polling) /\
  (forall e o n t,
     tracked (memory s) p = Some o ->
     Stat p ∈ emitted (memory s) (memory (step lower polling s (Tick e))) ->
     getsize e p = Some n ->
     n <> file_size o ->
     Datetime.add_seconds (clock e) polling = Some t ->
     exists o',
       tracked (memory (step lower polling s (Tick e))) p = Some o' /\
       next_poll o' = clock e + 1000000 * polling) /\
  (forall e o n,
     processor s = Running ->
     tracked (memory s) p = Some o ->
     next_poll o <= clock e ->
     getsize e p = Some n ->
     n <> file_size o ->
     processor (step lower polling s (Tick e)) = Running ->
     exists o',
       tracked (memory (step lower polling s (Tick e))) p = Some o' /\
       next_poll o' = clock e + 1000000 * polling) /\
  (forall a o',
     tracked (memory (step lower polling s a)) p = Some o' ->
     match tracked (memory s) p with
     | Some o =>
         next_poll o' = next_poll o \/
         next_poll o' = clock (action_env a) + 1000000 * polling
     | None => next_poll o' = clock (action_env a) + 1000000 * polling
     end).
Proof.
  intros Hinv. split_and!.
  - intros event e n t Hp [Hdir Hty] Hnew Hsz Ht. subst p. simpl.
    pose proof (on_any_event_step lower polling event e (memory s)) as Hstep.
    assert (Habsent : src_path event ∉ Dict.keys (FILE_QUEUE (memory s))).
    { intros Hin%tracked_is_Some; [|apply Hinv]. rewrite Hnew in Hin.
      by destruct Hin. }
    destruct (on_any_event lower polling event e (memory s)) as [r st'].
    simpl in *.
    inversion Hstep as [[?|?]| | | |]; subst; try congruence.
    simplify_eq. eexists. split; [by apply tracked_queued|].
    simpl. by apply add_seconds_Some.
  - intros e o n t Ho Hp Hsz Hne Ht.
    destruct (step_tick_memory lower polling s e) as [Hm|[_ Hm]];
      rewrite Hm in Hp |- *.
    { rewrite emitted_refl in Hp. by apply elem_of_nil in Hp. }
    destruct (sweep_measured lower polling e _ p o Hinv Ho Hp)
      as [? ? ? ?|n' t' ? ? ? Harmed ?|n' ? ? ? ? ? ?|? ? ?];
      simplify_eq; try done.
    eexists. split; [exact Harmed|]. simpl. by apply add_seconds_Some.
  - intros e o n Hrun Ho Hdue Hsz Hne Hrun'.
    destruct (step_tick_running lower polling s e Hrun) as [Hm Hproc].
    rewrite Hproc in Hrun'. rewrite Hm.
    destruct (fst (sweep polling e (memory s))) as [[]|x] eqn:Hr;
      [|discriminate].
    assert (Hp : Stat p ∈ emitted (memory s) (snd (sweep polling e (memory s))))
      by (by eapply sweep_complete).
    destruct (sweep_measured lower polling e _ p o Hinv Ho Hp)
      as [? ? ? ?|n' t' ? ? Ht' Harmed ?|n' ? ? ? ? ? ?|? ? ?];
      simplify_eq; try congruence; try done.
    eexists. split; [exact Harmed|]. simpl. by apply add_seconds_Some.
  - intros a o' Ho'. destruct a as [event e|e]; simpl in *.
    { pose proof (on_any_event_step lower polling event e (memory s)) as Hstep.
      destruct (tracked (memory s) p) as [o|] eqn:Ho.
      { left. erewrite event_step_tracked in Ho'; eauto; [congruence|apply Hinv]. }
      destruct (decide (p = src_path event)) as [->|Hne].
      - inversion Hstep as [Hig Hr Hst|Hq Hin Hr Hst|Hq Hnew Hsz Hr Hst
                            |n Hq Hnew Hsz Ht Hr Hst|n t Hq Hnew Hsz Ht Hr Hst];
          rewrite <- Hst in Ho'.
        + congruence.
        + congruence.
        + rewrite tracked_alloc in Ho' by apply Hinv. congruence.
        + rewrite tracked_alloc in Ho' by apply Hinv. congruence.
        + rewrite tracked_queued in Ho' by done. injection Ho' as <-. simpl.
          by apply add_seconds_Some.
      - erewrite event_step_other in Ho'; eauto; [congruence|apply Hinv]. }
    destruct (step_tick_memory lower polling s e) as [Hm|[_ Hm]];
      simpl in Hm; rewrite Hm in Ho'.
    + rewrite Ho'. by left.
    + destruct (sweep_entry lower polling e _ p o' Hinv Ho')
        as (o & -> & _ & _ & _ & H). done.
Qed.

Lemma next_poll_is_now_plus_interval_witness :
  (exists o', tracked (memory Sample.staged) Sample.a_txt = Some o' /\
              next_poll o' = 0 + 1000000 * 2) /\
  (exists o', tracked (memory (step Sample.lower 2 Sample.staged
                                (Tick (Sample.world 3 [(Sample.a_txt, 150)]))))
                      Sample.a_txt = Some o' /\
              next_poll o' = 3000000 + 1000000 * 2).
Proof.
  split.
  - destruct (next_poll_is_now_plus_interval Sample.lower 2 Sample.start Sample.a_txt
                (reachable_invariant Sample.lower 2 _ (reach_initial _ _)))
      as (Harm & _).
    apply (Harm (Sample.modified Sample.a_txt)
                (Sample.world 0 [(Sample.a_txt, 100)]) 100 2000000).
    + reflexivity.
    + split; reflexivity.
    + reflexivity.
    + reflexivity.
    + reflexivity.
  - destruct (next_poll_is_now_plus_interval Sample.lower 2 Sample.staged Sample.a_txt
                staged_invariant) as (_ & _ & Hrearm & _).
    apply (Hrearm (Sample.world 3 [(Sample.a_txt, 150)])
                  (mkItem Sample.a_txt 100 "a.txt" ".txt" 2000000) 150).
    + reflexivity.
    + reflexivity.
    + vm_compute. discriminate.
    + reflexivity.
    + discriminate.
    + reflexivity.
Defined.

(** C9.  Missing directory.  For a configured directory that does not
    exist [main] logs an error and creates no watcher, it does not
    raise, and every configured directory that exists is watched. *)
Theorem missing_directory_skipped ds e st missing present :
  missing ∈ ds -> path_exists e missing = false ->
  present ∈ ds -> path_exists e present = true ->
  let st' := snd (main (Some ds) e st) in
  fst (main (Some ds) e st) = Ok tt /\
  Log (DoesNotExist missing) ∈ emitted st st' /\
  (Watch missing ∉ emitted st st') /\
  Watch present ∈ emitted st st' /\
  Log (AddingMonitor present) ∈ emitted st st' /\
  heap st' = heap st /\ FILE_QUEUE st' = FILE_QUEUE st.
Proof.
  intros Hm Hmiss Hp Hpres st'. subst st'. rewrite main_effects. simpl.
  erewrite emitted_app by done.
  assert (Hin : forall d x, d ∈ ds -> x ∈ monitor_effects e d ->
                            x ∈ ProcessorStarted :: flat_map (monitor_effects e) ds).
  { intros d x Hd Hx. right. apply list_elem_of_In, in_flat_map.
    exists d. split; by apply list_elem_of_In. }
  split_and!; try done.
  - apply (Hin missing); [done|]. unfold monitor_effects. rewrite Hmiss. left.
  - intros [[=]|Hw]%elem_of_cons.
    apply list_elem_of_In, in_flat_map in Hw as (d & _ & Hw).
    apply list_elem_of_In in Hw. unfold monitor_effects in Hw.
    destruct (path_exists e d) eqn:Hd.
    + apply elem_of_cons in Hw as [[= ->]|[[=]|[]%elem_of_nil]%elem_of_cons].
      congruence.
    + apply elem_of_cons in Hw as [[=]|[]%elem_of_nil].
  - apply (Hin present); [done|]. unfold monitor_effects. rewrite Hpres. left.
  - apply (Hin present); [done|]. unfold monitor_effects. rewrite Hpres.
    right. left.
Qed.

Lemma missing_directory_skipped_witness :
  let e := Sample.world 0 [("in", 0); ("out", 0)] in
  fst (main (Some ["in"; "gone"; "out"]) e initial_state) = Ok tt /\
  Watch "out" ∈ emitted initial_state
                  (snd (main (Some ["in"; "gone"; "out"]) e initial_state)).
Proof.
  intros e.
  destruct (missing_directory_skipped ["in"; "gone"; "out"] e initial_state
              "gone" "out") as (H1 & _ & _ & H2 & _).
  - right. left.
  - reflexivity.
  - right. right. left.
  - reflexivity.
  - split; [exact H1 | exact H2].
Defined.

Lemma rfind_at_spec c s i acc :
  Path.rfind_at c s i acc = acc \/
  (i <= Path.rfind_at c s i acc /\
   exists r, Path.drop (Z.to_nat (Path.rfind_at c s i acc - i)) s = String c r).
Proof.
  revert i acc. induction s as [|x s IH]; intros i acc; simpl; [by left|].
  destruct (IH (i + 1) (if Ascii.eqb x c then i else acc)) as [Heq|[Hle [r Hr]]].
  - rewrite Heq. destruct (Ascii.eqb_spec x c) as [->|Hne]; [|by left].
    right. split; [lia|]. exists s. by rewrite Z.sub_diag.
  - right. split; [lia|]. exists r.
    replace (Z.to_nat (Path.rfind_at c s (i + 1) (if Ascii.eqb x c then i else acc) - i))
      with (S (Z.to_nat (Path.rfind_at c s (i + 1)
                           (if Ascii.eqb x c then i else acc) - (i + 1)))) by lia.
    done.
Qed.

(** The extension [splitext] returns is empty or begins with the dot. *)
Lemma splitext_extension p :
  snd (Path.splitext p) = "" \/ exists r, snd (Path.splitext p) = String "." r.
Proof.
  unfold Path.splitext.
  destruct (Z.gtb_spec (Path.rfind "." p) (Path.rfind "/" p)) as [Hgt|Hle];
    [|by left].
  destruct (Path.only_dots _ _); [by left|]. right. simpl.
  destruct (rfind_at_spec "." p 0 (-1)) as [Heq|[_ [r Hr]]].
  - exfalso. unfold Path.rfind in *.
    destruct (rfind_at_spec "/" p 0 (-1)) as [Hs|[Hs _]]; lia.
  - rewrite Z.sub_0_r in Hr. eauto.
Qed.

(** C10.  Map consistency.  Every step preserves the invariant of the
    dictionary: each entry carries the path it is filed under, the
    base name of that path and its lowered extension, which before
    lowering is empty or begins with the dot.  An entry that a sweep
    keeps has the same path, name and extension as before, and the
    re-arming branch of the loop body leaves the dictionary itself as
    it is and records the new size. *)
Theorem map_consistency lower polling s :
  queue_invariant lower (memory s) ->
  (forall a, queue_invariant lower (memory (step lower polling s a))) /\
  (forall p o, tracked (memory s) p = Some o ->
     file_path o = p /\
     file_name o = Path.basename p /\
     file_extention o = lower (snd (Path.splitext p)) /\
     (snd (Path.splitext p) = "" \/ exists r, snd (Path.splitext p) = String "." r)) /\
  (forall e p o', tracked (memory (step lower polling s (Tick e))) p = Some o' ->
     exists o, tracked (memory s) p = Some o /\
       file_path o' = file_path o /\
       file_name o' = file_name o /\
       file_extention o' = file_extention o) /\
  (forall e p ref o n,
     Dict.get p (FILE_QUEUE (memory s)) = Some ref ->
     heap (memory s) !! ref = Some o ->
     next_poll o <= clock e ->
     getsize e p = Some n ->
     n <> file_size o ->
     let st' := snd (process_item polling e (clock e) (p, ref) (memory s)) in
     FILE_QUEUE st' = FILE_QUEUE (memory s) /\
     exists o', tracked st' p = Some o' /\
       file_size o' = n /\
       file_path o' = file_path o /\
       file_name o' = file_name o /\
       file_extention o' = file_extention o).
Proof.
  intros Hinv. split_and!.
  - intros a. by apply step_invariant.
  - intros p o Ho. destruct Hinv as [_ Hc].
    destruct (Hc p o Ho) as (? & ? & ?). split_and!; try done.
    apply splitext_extension.
  - intros e p o' Ho'.
    destruct (step_tick_memory lower polling s e) as [Hm|[_ Hm]];
      rewrite Hm in Ho'.
    + eauto.
    + destruct (sweep_entry lower polling e _ p o' Hinv Ho')
        as (o & ? & ? & ? & ? & _). eauto.
  - intros e p ref o n Hp Ho Hdue Hsz Hne st'.
    pose proof (process_item_step polling e p ref (memory s) (proj1 Hinv) Hp)
      as Hstep. subst st'.
    destruct (process_item polling e (clock e) (p, ref) (memory s)) as [r st'].
    simpl in *.
    inversion Hstep; subst; simplify_eq; try lia.
    + split; [done|]. eexists. split.
      * apply tracked_assign; [apply Hinv|done].
      * done.
    + split; [done|]. eexists. split.
      * apply tracked_assign; [apply Hinv|done].
      * done.
Qed.

Lemma map_consistency_witness :
  queue_invariant Sample.lower
    (memory (step Sample.lower 2 Sample.staged (Tick (Sample.world 2 [(Sample.a_txt, 150)])))) /\
  file_name (mkItem Sample.a_txt 100 "a.txt" ".txt" 2000000) = Path.basename Sample.a_txt.
Proof.
  destruct (map_consistency Sample.lower 2 Sample.staged staged_invariant)
    as (H1 & H2 & _).
  split.
  - exact (H1 (Tick (Sample.world 2 [(Sample.a_txt, 150)]))).
  - exact (proj1 (proj2 (H2 Sample.a_txt _ eq_refl))).
Defined.

(** * Further properties of the program *)

(** ** The callback *)

(** X1.  A qualifying notification for a path that is not tracked,
    whose file can be measured, at a time from which the polling
    interval can be added, returns normally and files a new entry
    behind all the others: the entry holds the path, the measured size,
    the base name, the lowered extension and the time of the call plus
    the interval; every other entry is as before, and the call logged
    once and measured once. *)
Theorem notification_queues_file lower polling st event e n t :
  well_formed st ->
  qualifies event ->
  src_path event ∉ Dict.keys (FILE_QUEUE st) ->
  getsize e (src_path event) = Some n ->
  Datetime.add_seconds (clock e) polling = Some t ->
  let st' := snd (on_any_event lower polling event e st) in
  fst (on_any_event lower polling event e st) = Ok tt /\
  Dict.keys (FILE_QUEUE st') = Dict.keys (FILE_QUEUE st) ++ [src_path event] /\
  tracked st' (src_path event) =
    Some (mkItem (src_path event) n (Path.basename (src_path event))
                 (lower (snd (Path.splitext (src_path event)))) t) /\
  (forall q, q <> src_path event -> tracked st' q = tracked st q) /\
  emitted st st' = [Log (AddingToQueue (src_path event)); Stat (src_path event)].
Proof.
  intros Hwf [Hdir Hty] Hnew Hsz Ht st'.
  pose proof (on_any_event_step lower polling event e st) as Hstep.
  subst st'.
  destruct (on_any_event lower polling event e st) as [r st']. simpl in *.
  inversion Hstep as [[?|?]| | | |]; subst; try congruence.
  simplify_eq. split_and!; try done.
  - unfold Dict.keys. simpl. by rewrite fmap_app.
  - by apply tracked_queued.
  - intros q Hq. by apply tracked_queued_other.
  - by eapply emitted_app.
Qed.

Lemma notification_queues_file_witness :
  let st' := snd (on_any_event Sample.lower 2 (Sample.modified Sample.b_txt)
                    (Sample.world 1 [(Sample.b_txt, 7)]) (memory Sample.staged)) in
  Dict.keys (FILE_QUEUE st') = [Sample.a_txt; Sample.b_txt] /\
  tracked st' Sample.b_txt = Some (mkItem Sample.b_txt 7 "b.txt" ".txt" 3000000).
Proof.
  intros st'.
  destruct (notification_queues_file Sample.lower 2 (memory Sample.staged)
              (Sample.modified Sample.b_txt) (Sample.world 1 [(Sample.b_txt, 7)])
              7 3000000) as (_ & H1 & H2 & _).
  - apply staged_invariant.
  - split; reflexivity.
  - vm_compute. intros H. inversion H as [|? ? ? H']; inversion H'.
  - reflexivity.
  - reflexivity.
  - split; [exact H1 | exact H2].
Defined.

(** X2.  The callback never touches an entry that exists: whatever the
    notification, a tracked path keeps its object, with every field,
    and its place in the dictionary, and the callback reports nothing
    ready. *)
Theorem callback_keeps_entries lower polling st event e q o :
  well_formed st ->
  tracked st q = Some o ->
  let st' := snd (on_any_event lower polling event e st) in
  tracked st' q = Some o /\
  Dict.get q (FILE_QUEUE st') = Dict.get q (FILE_QUEUE st) /\
  forall r, times_ready r (emitted st st') = 0%nat.
Proof.
  intros Hwf Ho st'.
  pose proof (on_any_event_step lower polling event e st) as Hstep.
  fold st' in Hstep.
  split_and!.
  - by eapply event_step_tracked.
  - assert (Hq : q ∈ Dict.keys (FILE_QUEUE st)).
    { apply tracked_is_Some; [done|]. by rewrite Ho. }
    subst st'.
    destruct (on_any_event lower polling event e st) as [r st']. simpl in *.
    inversion Hstep as [| | | |? ? ? Hnew]; subst; try done. simpl.
    apply get_None in Hnew as Hget.
    rewrite <- (set_absent _ _ (length (heap st)) Hget).
    apply get_set_ne. by intros <-.
  - intros r. apply occurrences_0.
    destruct (event_step_emitted _ _ _ _ _ _ _ Hstep) as [->| ->].
    + apply not_elem_of_nil.
    + intros [[=]|[[=]|[]%elem_of_nil]%elem_of_cons]%elem_of_cons.
Qed.

Lemma callback_keeps_entries_witness :
  tracked (snd (on_any_event Sample.lower 2 (Sample.modified Sample.b_txt)
                  (Sample.world 1 [(Sample.b_txt, 7)]) (memory Sample.staged)))
          Sample.a_txt
  = Some (mkItem Sample.a_txt 100 "a.txt" ".txt" 2000000).
Proof.
  apply (callback_keeps_entries Sample.lower 2 (memory Sample.staged)).
  - apply staged_invariant.
  - reflexivity.
Defined.

(** X3.  A callback that raises has queued nothing.  It raises only
    for a qualifying notification of an untracked path, and only
    [OSError], when the file cannot be measured, or [OverflowError],
    when it was measured but the polling time is not representable. *)
Theorem callback_raises_without_queueing lower polling st event e x :
  fst (on_any_event lower polling event e st) = Raise x ->
  let st' := snd (on_any_event lower polling event e st) in
  FILE_QUEUE st' = FILE_QUEUE st /\
  qualifies event /\
  (src_path event ∉ Dict.keys (FILE_QUEUE st)) /\
  ((x = OSError /\ getsize e (src_path event) = None) \/
   (x = OverflowError /\ is_Some (getsize e (src_path event)) /\
    Datetime.add_seconds (clock e) polling = None)).
Proof.
  intros Hr st'.
  pose proof (on_any_event_step lower polling event e st) as Hstep.
  subst st'.
  destruct (on_any_event lower polling event e st) as [r st']. simpl in *.
  subst r. inversion Hstep; subst; split_and!; eauto.
Qed.

Lemma callback_raises_without_queueing_witness :
  FILE_QUEUE (snd (on_any_event Sample.lower 400000000000
                     (Sample.modified Sample.b_txt)
                     (Sample.world 1 [(Sample.b_txt, 7)]) (memory Sample.staged)))
  = FILE_QUEUE (memory Sample.staged).
Proof.
  apply (callback_raises_without_queueing Sample.lower 400000000000
           (memory Sample.staged) (Sample.modified Sample.b_txt)
           (Sample.world 1 [(Sample.b_txt, 7)]) OverflowError).
  reflexivity.
Defined.

(** ** The sweep *)

Lemma sweep_reported lower polling st e p :
  queue_invariant lower st ->
  Log (ReadyForProcessing p) ∈ emitted st (snd (sweep polling e st)) ->
  exists o,
    tracked st p = Some o /\
    next_poll o <= clock e /\
    getsize e p = Some (file_size o) /\
    tracked (snd (sweep polling e st)) p = None /\
    times_ready p (emitted st (snd (sweep polling e st))) = 1%nat.
Proof.
  intros Hinv Hr.
  destruct (decide (Stat p ∈ emitted st (snd (sweep polling e st)))) as [Hp|Hp].
  - destruct (sweep_measured_due lower polling e st p Hinv Hp) as (o & Ho & Hdue).
    exists o.
    destruct (sweep_measured lower polling e st p o Hinv Ho Hp)
      as [? ? ? H0|? ? ? ? ? ? H0|? ? ? ? ? ? H0|? ? ?];
      try (apply occurrences_0 in H0; done).
    done.
  - by destruct (sweep_unmeasured lower polling e st p Hinv Hp) as (_ & _ & []).
Qed.

(** X4.  A tick reports a file ready only if the processor was running,
    the file was tracked and due, and its size was measured equal to
    the recorded one. *)
Theorem ready_only_when_settled lower polling s e p :
  queue_invariant lower (memory s) ->
  Log (ReadyForProcessing p)
    ∈ emitted (memory s) (memory (step lower polling s (Tick e))) ->
  processor s = Running /\
  exists o,
    tracked (memory s) p = Some o /\
    next_poll o <= clock e /\
    getsize e p = Some (file_size o).
Proof.
  intros Hinv Hr.
  destruct (step_tick_memory lower polling s e) as [Hm|[Hrun Hm]];
    rewrite Hm in Hr.
  - rewrite emitted_refl in Hr. by apply elem_of_nil in Hr.
  - split; [done|].
    destruct (sweep_reported lower polling _ e p Hinv Hr) as (o & ? & ? & ? & _).
    eauto.
Qed.

Lemma ready_only_when_settled_witness :
  exists o, tracked (memory Sample.staged) Sample.a_txt = Some o /\
            next_poll o <= 2000000 /\ file_size o = 100.
Proof.
  destruct (ready_only_when_settled Sample.lower 2 Sample.staged
              (Sample.world 2 [(Sample.a_txt, 100)]) Sample.a_txt)
    as (_ & o & Ho & Hdue & Hsz).
  - apply staged_invariant.
  - vm_compute. right. left.
  - exists o. split; [exact Ho|]. split; [exact Hdue|]. by injection Hsz.
Defined.

(** X5.  A sweep removes exactly the files it reports: a path was
    tracked before the pass and is not after it if and only if the pass
    logged it ready. *)
Theorem removed_iff_reported lower polling st e p :
  queue_invariant lower st ->
  (is_Some (tracked st p) /\ tracked (snd (sweep polling e st)) p = None) <->
  Log (ReadyForProcessing p) ∈ emitted st (snd (sweep polling e st)).
Proof.
  intros Hinv. split.
  - intros [[o Ho] Hgone].
    destruct (decide (Stat p ∈ emitted st (snd (sweep polling e st)))) as [Hp|Hp].
    + destruct (sweep_measured lower polling e st p o Hinv Ho Hp)
        as [? ? Ht ?|? ? ? ? ? Ht ?|? ? ? ? ? Ht ?|? ? H1]; try congruence.
      apply occurrences_pos. unfold times_ready in H1. lia.
    + destruct (sweep_unmeasured lower polling e st p Hinv Hp) as (Ht & _).
      congruence.
  - intros Hr.
    destruct (sweep_reported lower polling st e p Hinv Hr)
      as (o & Ho & _ & _ & Hgone & _).
    split; [by rewrite Ho|done].
Qed.

Lemma removed_iff_reported_witness :
  Log (ReadyForProcessing Sample.a_txt)
    ∈ emitted (memory Sample.staged)
        (snd (sweep 2 (Sample.world 2 [(Sample.a_txt, 100)]) (memory Sample.staged))).
Proof.
  apply (removed_iff_reported Sample.lower 2 (memory Sample.staged)).
  - apply staged_invariant.
  - split; [by eexists|reflexivity].
Defined.

Lemma measured_paths_app evs1 evs2 :
  measured_paths (evs1 ++ evs2) = measured_paths evs1 ++ measured_paths evs2.
Proof. apply omap_app. Qed.

Lemma ready_paths_app evs1 evs2 :
  ready_paths (evs1 ++ evs2) = ready_paths evs1 ++ ready_paths evs2.
Proof. apply omap_app. Qed.

Lemma sweep_run_order lower polling e l st r st' :
  sweep_run lower polling e l st r st' ->
  measured_paths (emitted st st') `sublist_of` Dict.keys l /\
  ready_paths (emitted st st') `sublist_of` measured_paths (emitted st st').
Proof.
  assert (Hitem : forall k a st r st1,
    queue_invariant lower st ->
    Dict.get k (FILE_QUEUE st) = Some a ->
    item_step polling e k a st r st1 ->
    measured_paths (emitted st st1) `sublist_of` [k] /\
    ready_paths (emitted st st1) `sublist_of` measured_paths (emitted st st1)).
  { clear. intros k a st r st1 [Hwf Hc] Hk Hstep. inversion Hstep; subst.
    - rewrite emitted_refl. split; [apply sublist_nil_l | done].
    - erewrite emitted_app by done. split; [done | apply sublist_nil_l].
    - erewrite emitted_app by done. split; [done | apply sublist_nil_l].
    - erewrite emitted_app by done. split; [done | apply sublist_nil_l].
    - erewrite emitted_app by done.
      assert (file_path o = k) as ->.
      { apply (Hc k o). apply tracked_Some. eauto. }
      done. }
  induction 1 as [|k a l st st1 r st2 Hinv Hk Hstep Hrun [IH1 IH2]
                  |k a l st y st1 Hinv Hk Hstep].
  - rewrite emitted_refl. split; [apply sublist_nil_l | done].
  - rewrite (emitted_trans st st1 st2)
      by eauto using item_step_extends, sweep_run_extends.
    rewrite measured_paths_app, ready_paths_app.
    destruct (Hitem k a st _ st1 Hinv Hk Hstep) as [H1 H2].
    split.
    + change (Dict.keys ((k, a) :: l)) with ([k] ++ Dict.keys l).
      by apply sublist_app.
    + by apply sublist_app.
  - destruct (Hitem k a st _ st1 Hinv Hk Hstep) as [H1 H2].
    split; [|done].
    change (Dict.keys ((k, a) :: l)) with ([k] ++ Dict.keys l).
    etrans; [exact H1|]. by apply sublist_inserts_r.
Qed.

(** X6.  A pass goes through the dictionary in its order: the files it
    measures are measured once each and in the order of their entries,
    and the files it reports are among those it measured, in the same
    order. *)
Theorem sweep_in_queue_order lower polling st e :
  queue_invariant lower st ->
  let evs := emitted st (snd (sweep polling e st)) in
  measured_paths evs `sublist_of` Dict.keys (FILE_QUEUE st) /\
  ready_paths evs `sublist_of` measured_paths evs /\
  NoDup (measured_paths evs).
Proof.
  intros Hinv evs.
  destruct (sweep_run_order lower polling e _ _ _ _
              (sweep_is_run lower polling e st Hinv)) as [H1 H2].
  split_and!; try done.
  eapply sublist_NoDup; [|exact H1]. apply Hinv.
Qed.

Lemma sweep_in_queue_order_witness :
  measured_paths (emitted (memory Sample.staged_both)
     (snd (sweep 2 (Sample.world 2 Sample.both) (memory Sample.staged_both))))
  `sublist_of` [Sample.a_txt; Sample.b_txt].
Proof.
  apply (sweep_in_queue_order Sample.lower 2 (memory Sample.staged_both)).
  apply staged_both_invariant.
Defined.

Lemma sweep_run_raise_cause lower polling e l st r st' x :
  sweep_run lower polling e l st r st' ->
  r = Raise x ->
  exists p o,
    tracked st p = Some o /\ next_poll o <= clock e /\
    ((x = OSError /\ getsize e p = None) \/
     (x = OverflowError /\
      (exists n, getsize e p = Some n /\ n <> file_size o) /\
      Datetime.add_seconds (clock e) polling = None)).
Proof.
  induction 1 as [|k a l st st1 r st2 Hinv Hk Hstep Hrun IH
                  |k a l st y st1 Hinv Hk Hstep]; intros Hr.
  - discriminate.
  - destruct (IH Hr) as (p & o & Ho & Hdue & Hcause).
    destruct (decide (p = k)) as [->|Hne].
    + apply tracked_Some in Ho as (a' & Ha' & Ho).
      inversion Hstep; subst; simpl in *.
      * exists k, o. split; [apply tracked_Some; eauto|done].
      * exfalso. simplify_eq.
        rewrite list_lookup_insert_eq in Ho by (by eapply lookup_lt_Some).
        simplify_eq. simpl in *.
        destruct Hcause as [[_ ?]|(_ & (n' & ? & ?) & _)]; congruence.
      * exfalso. rewrite get_remove_eq in Ha' by apply Hinv. discriminate.
    + exists p, o.
      destruct (item_step_other polling e k a st _ _ p (proj1 Hinv) Hk Hstep Hne)
        as [<- _]. done.
  - injection Hr as ->.
    inversion Hstep; subst; exists k, o;
      (split; [apply tracked_Some; by eauto|]); split; try done.
    + by left.
    + right. eauto.
Qed.

(** X7.  A pass raises only over a tracked file that is due: [OSError]
    when that file cannot be measured, [OverflowError] when it has grown
    and the next polling time is not representable.  In particular
    [FILE_QUEUE.pop] never raises [KeyError]. *)
Theorem sweep_raises_for_a_cause lower polling st e x :
  queue_invariant lower st ->
  fst (sweep polling e st) = Raise x ->
  exists p o,
    tracked st p = Some o /\ next_poll o <= clock e /\
    ((x = OSError /\ getsize e p = None) \/
     (x = OverflowError /\
      (exists n, getsize e p = Some n /\ n <> file_size o) /\
      Datetime.add_seconds (clock e) polling = None)).
Proof.
  intros Hinv Hr.
  eapply sweep_run_raise_cause; [by apply sweep_is_run|done].
Qed.

Lemma sweep_raises_for_a_cause_witness :
  exists p o,
    tracked (memory Sample.staged_both) p = Some o /\
    getsize (Sample.world 2 [(Sample.b_txt, 20)]) p = None.
Proof.
  destruct (sweep_raises_for_a_cause Sample.lower 2 (memory Sample.staged_both)
              (Sample.world 2 [(Sample.b_txt, 20)]) OSError)
    as (p & o & Ho & _ & [[_ Hsz]|[[=] _]]).
  - apply staged_both_invariant.
  - reflexivity.
  - eauto.
Defined.

Lemma sweep_run_idle lower polling e l st r st' :
  sweep_run lower polling e l st r st' ->
  (forall p o, tracked st p = Some o -> clock e < next_poll o) ->
  r = Ok tt /\ st' = st.
Proof.
  induction 1 as [|k a l st st1 r st2 Hinv Hk Hstep Hrun IH
                  |k a l st y st1 Hinv Hk Hstep]; intros Hidle.
  - done.
  - assert (st1 = st) as ->; [|by apply IH].
    inversion Hstep; subst; try done;
      match goal with Ho : heap st !! a = Some ?o |- _ =>
        assert (clock e < next_poll o)
          by (apply (Hidle k); apply tracked_Some; eauto); lia end.
  - exfalso. inversion Hstep; subst;
      match goal with Ho : heap st !! a = Some ?o |- _ =>
        assert (clock e < next_poll o)
          by (apply (Hidle k); apply tracked_Some; eauto); lia end.
Qed.

(** X8.  A pass at which no entry is due returns normally and changes
    nothing: no object, no entry, no effect. *)
Theorem idle_sweep_changes_nothing lower polling st e :
  queue_invariant lower st ->
  (forall p o, tracked st p = Some o -> clock e < next_poll o) ->
  sweep polling e st = (Ok tt, st).
Proof.
  intros Hinv Hidle.
  destruct (sweep_run_idle lower polling e _ _ _ _
              (sweep_is_run lower polling e st Hinv) Hidle) as [Hr Hst].
  destruct (sweep polling e st). simpl in *. congruence.
Qed.

Lemma idle_sweep_changes_nothing_witness :
  sweep 2 (Sample.world 1 []) (memory Sample.staged_both)
  = (Ok tt, memory Sample.staged_both).
Proof.
  apply (idle_sweep_changes_nothing Sample.lower 2).
  - apply staged_both_invariant.
  - intros p o Ho.
    assert (Hp : p ∈ Dict.keys (FILE_QUEUE (memory Sample.staged_both))).
    { apply tracked_is_Some; [apply staged_both_invariant|]. by rewrite Ho. }
    change (Dict.keys (FILE_QUEUE (memory Sample.staged_both)))
      with [Sample.a_txt; Sample.b_txt] in Hp.
    apply elem_of_cons in Hp as [->|[->|[]%elem_of_nil]%elem_of_cons];
      vm_compute in Ho; injection Ho as <-; reflexivity.
Defined.

(** X9.  When a due file has grown but the next polling time is not
    representable, the pass raises [OverflowError] after the new size
    was assigned: the entry stays, with the new size and the old
    polling time, and is not reported. *)
Theorem rearm_overflow_keeps_new_size lower polling st e p o n :
  queue_invariant lower st ->
  tracked st p = Some o ->
  Stat p ∈ emitted st (snd (sweep polling e st)) ->
  getsize e p = Some n ->
  n <> file_size o ->
  Datetime.add_seconds (clock e) polling = None ->
  fst (sweep polling e st) = Raise OverflowError /\
  tracked (snd (sweep polling e st)) p = Some (with_file_size n o) /\
  times_ready p (emitted st (snd (sweep polling e st))) = 0%nat.
Proof.
  intros Hinv Ho Hp Hsz Hne Ht.
  destruct (sweep_measured lower polling e st p o Hinv Ho Hp)
    as [? ? ? ?|? ? ? ? ? ? ?|? ? ? ? ? ? ?|? ? ?]; simplify_eq; done.
Qed.

Lemma rearm_overflow_keeps_new_size_witness :
  let far := mkEnv Datetime.datetime_max (fun _ => Some 150) (fun _ => true) in
  tracked (snd (sweep 2 far (memory Sample.staged))) Sample.a_txt
  = Some (mkItem Sample.a_txt 150 "a.txt" ".txt" 2000000).
Proof.
  intros far.
  destruct (rearm_overflow_keeps_new_size Sample.lower 2 (memory Sample.staged) far
              Sample.a_txt (mkItem Sample.a_txt 100 "a.txt" ".txt" 2000000) 150)
    as (_ & H & _).
  - apply staged_invariant.
  - reflexivity.
  - vm_compute. left.
  - reflexivity.
  - discriminate.
  - reflexivity.
  - exact H.
Defined.

(** ** The program as a whole *)

Lemma filter_eq_absent (l : list string) x :
  x ∉ l -> filter (fun k => k = x) l = [].
Proof.
  induction l as [|y l IH]; [done|].
  intros [Hne Hx]%not_elem_of_cons. rewrite filter_cons.
  destruct (decide (y = x)); [congruence|auto].
Qed.

(** X10.  In every state the program reaches, a path has at most one
    entry in the dictionary, it is tracked exactly when it has one, and
    no object is filed under two paths. *)
Theorem one_entry_per_path lower polling st p :
  reachable lower polling st ->
  (entries_for p st <= 1)%nat /\
  (is_Some (tracked st p) <-> entries_for p st = 1%nat) /\
  (forall q a, Dict.get p (FILE_QUEUE st) = Some a ->
               Dict.get q (FILE_QUEUE st) = Some a -> q = p).
Proof.
  intros Hreach. apply reachable_invariant in Hreach as [Hwf Hc].
  destruct (decide (p ∈ Dict.keys (FILE_QUEUE st))) as [Hin|Hout].
  - assert (entries_for p st = 1%nat) as Hone
        by (apply NoDup_filter_eq; [apply Hwf|done]).
    rewrite Hone. split_and!; [lia| |].
    + split; [done|]. intros _. by apply tracked_is_Some.
    + intros q a Hp Hq. eapply get_inj; eauto. apply Hwf.
  - assert (entries_for p st = 0%nat) as Hzero.
    { unfold entries_for. by rewrite filter_eq_absent. }
    rewrite Hzero. split_and!; [lia| |].
    + split; [|discriminate]. intros Hs. destruct Hout.
      by apply tracked_is_Some.
    + intros q a Hp. apply get_None in Hout. congruence.
Qed.

Lemma one_entry_per_path_witness :
  (entries_for Sample.a_txt (memory Sample.staged_both) <= 1)%nat.
Proof.
  apply (one_entry_per_path Sample.lower 2 (memory Sample.staged_both)).
  apply (reach_event Sample.lower 2), (reach_event Sample.lower 2 initial_state),
    reach_initial.
Defined.







Lemma monitor_effects_summary e ds :
  watched (flat_map (monitor_effects e) ds)
    = filter (fun d => path_exists e d = true) ds /\
  logged (flat_map (monitor_effects e) ds)
    = (fun d => if path_exists e d then AddingMonitor d else DoesNotExist d) <$> ds.
Proof.
  unfold watched, logged.
  induction ds as [|d ds [IH1 IH2]]; [done|].
  cbn [flat_map]. rewrite !omap_app, IH1, IH2, filter_cons, fmap_cons.
  unfold monitor_effects.
  destruct (decide (path_exists e d = true)) as [Hd|Hd].
  - by rewrite Hd.
  - apply not_true_is_false in Hd. by rewrite Hd.
Qed.

(** X12.  [main] with a list of directories returns normally; it
    creates one watcher for each directory of the list that exists, in
    the order of the list and once per occurrence, and logs one record
    per directory, in that order: the monitor for an existing one, the
    error for a missing one. *)
Theorem main_watches_existing ds e st :
  let evs := emitted st (snd (main (Some ds) e st)) in
  fst (main (Some ds) e st) = Ok tt /\
  watched evs = filter (fun d => path_exists e d = true) ds /\
  logged evs = (fun d => if path_exists e d then AddingMonitor d
                         else DoesNotExist d) <$> ds.
Proof.
  intros evs. subst evs. rewrite main_effects. simpl.
  erewrite emitted_app by done.
  split; [done|]. apply (monitor_effects_summary e ds).
Qed.

Lemma rfind_at_none c s i acc :
  acc < i -> Path.rfind_at c s i acc = acc ->
  forall i' acc', Path.rfind_at c s i' acc' = acc'.
Proof.
  revert i acc. induction s as [|x s IH]; intros i acc Hlt Hr i' acc'; [done|].
  simpl in *. destruct (Ascii.eqb x c).
  - destruct (rfind_at_spec c s (i + 1) i) as [Heq|[Hle _]]; lia.
  - apply (IH (i + 1) acc); [lia|done].
Qed.

Lemma rfind_at_last c s i acc :
  acc < i -> Path.rfind_at c s i acc <> acc ->
  forall i' acc',
    Path.rfind_at c (Path.drop (Z.to_nat (Path.rfind_at c s i acc - i + 1)) s) i' acc'
    = acc'.
Proof.
  revert i acc. induction s as [|x s IH]; intros i acc Hlt Hr i' acc'; [done|].
  simpl in Hr. simpl Path.rfind_at.
  set (acc1 := if Ascii.eqb x c then i else acc) in *.
  assert (Hlt1 : acc1 < i + 1) by (subst acc1; destruct (Ascii.eqb x c); lia).
  destruct (rfind_at_spec c s (i + 1) acc1) as [Heq|[Hle _]].
  - rewrite Heq in *. subst acc1.
    destruct (Ascii.eqb x c); [|done].
    replace (Z.to_nat (i - i + 1)) with 1%nat by lia. simpl.
    by apply (rfind_at_none c s (i + 1) i).
  - destruct (decide (Path.rfind_at c s (i + 1) acc1 = acc1)) as [Heq|Hne]; [lia|].
    replace (Z.to_nat (Path.rfind_at c s (i + 1) acc1 - i + 1))
      with (S (Z.to_nat (Path.rfind_at c s (i + 1) acc1 - (i + 1) + 1))) by lia.
    simpl. by apply IH.
Qed.

Lemma rfind_lower_bound c s : -1 <= Path.rfind c s.
Proof.
  unfold Path.rfind. destruct (rfind_at_spec c s 0 (-1)) as [->|[? _]]; lia.
Qed.

Lemma basename_no_separator p : Path.rfind "/" (Path.basename p) = -1.
Proof.
  unfold Path.basename, Path.rfind.
  destruct (decide (Path.rfind_at "/" p 0 (-1) = -1)) as [Heq|Hne].
  - rewrite Heq. simpl. done.
  - pose proof (rfind_at_last "/" p 0 (-1) ltac:(lia) Hne 0 (-1)) as H.
    by rewrite Z.sub_0_r in H.
Qed.

Lemma take_drop_string n s : String.append (Path.take n s) (Path.drop n s) = s.
Proof.
  revert s. induction n as [|n IH]; intros [|x s]; simpl; try done.
  change (String x (String.append (Path.take n s) (Path.drop n s)) = String x s).
  by rewrite IH.
Qed.

Lemma drop_drop_string a b s : Path.drop (a + b) s = Path.drop b (Path.drop a s).
Proof.
  revert s. induction a as [|a IH]; intros s; [done|].
  destruct s as [|x s]; simpl; [by destruct b|apply IH].
Qed.

Lemma append_empty_r s : String.append s "" = s.
Proof.
  induction s as [|x s IH]; [done|].
  change (String x (String.append s "") = String x s). by rewrite IH.
Qed.

Lemma splitext_join p :
  String.append (fst (Path.splitext p)) (snd (Path.splitext p)) = p.
Proof.
  unfold Path.splitext.
  destruct (_ >? _); [|apply append_empty_r].
  destruct (Path.only_dots _ _); [apply append_empty_r|].
  apply take_drop_string.
Qed.

Lemma basename_ends_with_extension p :
  exists stem, Path.basename p = String.append stem (snd (Path.splitext p)).
Proof.
  unfold Path.splitext, Path.basename.
  destruct (Z.gtb_spec (Path.rfind "." p) (Path.rfind "/" p)) as [Hgt|Hle].
  2:{ eexists. by rewrite append_empty_r. }
  destruct (Path.only_dots _ _).
  { eexists. by rewrite append_empty_r. }
  simpl. pose proof (rfind_lower_bound "/" p) as Hsep.
  exists (Path.take (Z.to_nat (Path.rfind "." p - (Path.rfind "/" p + 1)))
                    (Path.drop (Z.to_nat (Path.rfind "/" p + 1)) p)).
  replace (Z.to_nat (Path.rfind "." p))
    with (Z.to_nat (Path.rfind "/" p + 1)
          + Z.to_nat (Path.rfind "." p - (Path.rfind "/" p + 1)))%nat by lia.
  rewrite drop_drop_string. by rewrite take_drop_string.
Qed.

(** X13.  The derived fields of an entry: the name has no separator,
    it ends with the extension that [splitext] finds in the path, the
    extension field is that extension lowered, and root and extension
    together are the path. *)
Theorem entry_name_and_extension lower st p o :
  queue_invariant lower st ->
  tracked st p = Some o ->
  Path.rfind "/" (file_name o) = -1 /\
  (exists stem, file_name o = String.append stem (snd (Path.splitext p))) /\
  file_extention o = lower (snd (Path.splitext p)) /\
  String.append (fst (Path.splitext p)) (snd (Path.splitext p)) = file_path o.
Proof.
  intros [_ Hc] Ho. destruct (Hc p o Ho) as (-> & -> & ->).
  split_and!; [apply basename_no_separator|apply basename_ends_with_extension
              |done|apply splitext_join].
Qed.

Lemma entry_name_and_extension_witness :
  Path.rfind "/" (file_name (mkItem "/in/x.Tar.GZ" 1 "x.Tar.GZ" ".gz" 0)) = -1.
Proof.
  apply (entry_name_and_extension Sample.lower
           (snd (on_any_event Sample.lower 0 (Sample.modified "/in/x.Tar.GZ")
                   (Sample.world 0 [("/in/x.Tar.GZ", 1)]) initial_state))
           "/in/x.Tar.GZ").
  - apply (reachable_invariant Sample.lower 0).
    apply (reach_event Sample.lower 0 initial_state), reach_initial.
  - reflexivity.
Defined.

Lemma tick_measures_due_witness :
  Stat Sample.b_txt
    ∈ emitted (memory Sample.staged_both)
        (memory (step Sample.lower 2 Sample.staged_both
                      (Tick (Sample.world 2 [(Sample.a_txt, 11); (Sample.b_txt, 20)])))).
Proof.
  apply (tick_measures_due Sample.lower 2 Sample.staged_both
           (Sample.world 2 [(Sample.a_txt, 11); (Sample.b_txt, 20)])
           Sample.b_txt (mkItem Sample.b_txt 20 "b.txt" ".txt" 2000000)).
  - apply staged_both_invariant.
  - reflexivity.
  - reflexivity.
  - reflexivity.
  - vm_compute. discriminate.
Defined.

Lemma step_before_due lower polling s a p o :
  queue_invariant lower (memory s) ->
  tracked (memory s) p = Some o ->
  not_before (next_poll o) a ->
  Stat p ∉ emitted (memory s) (memory (step lower polling s a)).
Proof.
  intros Hinv Ho Ha. destruct a as [event e|e].
  - simpl.
    pose proof (on_any_event_step lower polling event e (memory s)) as Hstep.
    assert (Hp : p ∈ Dict.keys (FILE_QUEUE (memory s))).
    { apply tracked_is_Some; [apply Hinv|]. by rewrite Ho. }
    inversion Hstep as [| | |? ? Hnew|? ? ? Hnew]; subst;
      try no_effects;
      (erewrite emitted_app by done);
      intros [[=]|[[= ->]|[]%elem_of_nil]%elem_of_cons]%elem_of_cons; done.
  - destruct (step_tick_memory lower polling s e) as [Hm|[_ Hm]]; rewrite Hm.
    + no_effects.
    + intros (o' & Ho' & Hdue)%(sweep_measured_due lower); [|done].
      simpl in Ha. simplify_eq. lia.
Qed.

(** X15.  An entry is left alone until it is due: through any run of
    notifications and of ticks earlier than its next polling time the
    entry keeps every field, and the file is neither measured nor
    reported. *)
Theorem staged_until_due lower polling s acts p o :
  queue_invariant lower (memory s) ->
  tracked (memory s) p = Some o ->
  Forall (not_before (next_poll o)) acts ->
  let s' := run lower polling s acts in
  tracked (memory s') p = Some o /\
  times_stat p (emitted (memory s) (memory s')) = 0%nat /\
  times_ready p (emitted (memory s) (memory s')) = 0%nat.
Proof.
  intros Hinv Ho Hacts s'. subst s'.
  assert (Hs : Stat p ∉ emitted (memory s) (memory (run lower polling s acts))).
  { revert s Hinv Ho. induction Hacts as [|a acts Ha _ IH]; intros s Hinv Ho.
    - simpl. no_effects.
    - pose proof (step_before_due lower polling s a p o Hinv Ho Ha) as H1.
      destruct (step_unmeasured lower polling s a p o Hinv Ho H1) as [Ho1 _].
      rewrite steps_emitted by done. rewrite not_elem_of_app. split; [done|].
      apply IH; [by apply step_invariant|done]. }
  destruct (steps_unmeasured lower polling s acts p o Hinv Ho Hs) as [Hk Hr].
  split_and!; [done|by apply occurrences_0..].
Qed.

Lemma staged_until_due_witness :
  tracked (memory (run Sample.lower 2 Sample.staged
                       [Tick (Sample.world 0 [(Sample.a_txt, 100)]);
                        Notify (Sample.modified Sample.a_txt)
                               (Sample.world 1 [(Sample.a_txt, 200)]);
                        Tick (Sample.world 1 [(Sample.a_txt, 200)])]))
          Sample.a_txt
  = Some (mkItem Sample.a_txt 100 "a.txt" ".txt" 2000000).
Proof.
  apply (staged_until_due Sample.lower 2 Sample.staged).
  - apply staged_invariant.
  - reflexivity.
  - repeat constructor.
Defined.
